(** * Freezer utilities: atomic file replacement and table concatenation

    A shallow embedding of [core/rawdb/freezer_utils.go]: [copyFrom], the
    append-mode opener, [readIndex], the table-level [concat] and the
    store-level [Concat], over a model of the file system as a finite map
    from path names to file contents. *)

From Stdlib Require Import ZArith Lia.
From Stdlib Require Import Strings.Byte.
From stdpp Require Import base option list gmap strings pretty.

Local Open Scope Z_scope.

(** ** Errors

    One constructor per error the file can return, either produced by the
    operating system or built with [fmt.Errorf]. *)
Inductive error : Type :=
| EOF                                         (* io.EOF *)
| ErrNotExist (name : string)                 (* the path does not exist *)
| ErrExist (name : string)                    (* the path exists and cannot be replaced *)
| ErrInvalid                                  (* negative offset, rename into itself *)
| ErrIO                                       (* a failure of the device *)
| ErrCallback (code : nat)                    (* an error of the caller's callback *)
| ErrJump (filenum fromFileId : Z)            (* "unexpected jump from %d to %d" *)
| ErrIndexWrite (e : error)                   (* "error index: %e\n" *)
| ErrTableMissing (name : string)             (* "table %s not in source freezer" *)
| ErrConcatenating (name : string) (e : error)(* "concatenating tables %s: %s" *).

(** ** The file system

    Files only: a path is a directory when some file lies beneath it. An open
    [*os.File] is identified with the name it was opened under. *)
Abbreviation fsys := (gmap string (list byte)).

Fixpoint strip_prefix (p s : string) : option string :=
  match p with
  | EmptyString => Some s
  | String a p' =>
      match s with
      | EmptyString => None
      | String b s' => if decide (a = b) then strip_prefix p' s' else None
      end
  end.

(** [subpath d p] is the name of [p] relative to the directory [d]. *)
Definition subpath (d p : string) : option string := strip_prefix (d +:+ "/") p.

Definition is_dir (d : string) (fs : fsys) : bool :=
  bool_decide (map_Exists (λ p _, is_Some (subpath d p)) fs).

(** Exchanges the roots [old] and [new] of a path. *)
Definition reroot (old new p : string) : string :=
  match subpath old p with
  | Some rel => new +:+ "/" +:+ rel
  | None =>
      match subpath new p with
      | Some rel => old +:+ "/" +:+ rel
      | None => p
      end
  end.

(** Two directory names are nested when one is the other or lies beneath it. *)
Definition nested (a b : string) : bool :=
  bool_decide (is_Some (strip_prefix (a +:+ "/") (b +:+ "/"))).

(** [os.Rename]: a file replaces a file; a directory moves with everything
    beneath it, onto a path that is not occupied. *)
Definition Rename (old new : string) (fs : fsys) : fsys * option error :=
  match fs !! old with
  | Some c =>
      if is_dir new fs then (fs, Some (ErrExist new))
      else (<[new := c]> (delete old fs), None)
  | None =>
      if is_dir old fs then
        if decide (old = new) then (fs, None)
        else if nested old new || nested new old then (fs, Some ErrInvalid)
        else if bool_decide (is_Some (fs !! new)) || is_dir new fs
             then (fs, Some (ErrExist new))
        else (kmap (reroot old new) fs, None)
      else (fs, Some (ErrNotExist old))
  end.

(** [os.Remove]; its error is never looked at. *)
Definition Remove (name : string) (fs : fsys) : fsys := delete name fs.

(** [ioutil.TempFile]: the first of the names it tries that is free is
    created empty ([O_EXCL]); [names] are the candidates in the directory of
    the destination, in the order tried. *)
Definition TempFile (names : list string) (fs : fsys) : fsys * (string + error) :=
  match list_find (λ n, fs !! n = None) names with
  | Some (_, n) => (<[n := []]> fs, inl n)
  | None => (fs, inr (ErrExist ""))
  end.

(** Writing [p] at position [pos] of a file that holds [content]; a hole
    left by a cursor beyond the end reads as zero bytes. *)
Definition write_at (content : list byte) (pos : nat) (p : list byte) : list byte :=
  take pos content ++ replicate (pos - length content) x00 ++ p
    ++ drop (pos + length p) content.

(** ** copyFrom *)

(** The temporary file as the [before] callback sees it: what it holds and
    where its cursor is. *)
Record tmpfile := { tdata : list byte; tpos : nat }.

(** Failures of the device that the file system model cannot decide. *)
Inductive fault := NoFault | CopyFault (written : nat) | CloseFault | RenameFault.

Definition int64 (u : Z) : Z := if u <? 2 ^ 63 then u else u - 2 ^ 64.

Definition copyFrom (flt : fault) (names : list string) (srcPath destPath : string)
    (offset : Z) (before : option (tmpfile → tmpfile * option error))
    (fs : fsys) : fsys * option error :=
  match TempFile names fs with
  | (fs, inr e) => (fs, Some e)
  | (fs, inl fname) =>
      (* the deferred clean-up: close f if still open, remove fname *)
      let cleanup (r : fsys * option error) := (Remove fname r.1, r.2) in
      cleanup
        (let '(f, berr) :=
           match before with
           | Some b => b {| tdata := []; tpos := 0 |}
           | None => ({| tdata := []; tpos := 0 |}, None)
           end in
         let fs := <[fname := tdata f]> fs in
         match berr with
         | Some e => (fs, Some e)
         | None =>
             match fs !! srcPath with
             | None => (fs, Some (ErrNotExist srcPath))
             | Some src =>
                 if int64 offset <? 0 then (fs, Some ErrInvalid)
                 else
                   let rest := drop (Z.to_nat offset) src in
                   match flt with
                   | CopyFault n =>
                       (<[fname := write_at (tdata f) (tpos f) (take n rest)]> fs,
                        Some ErrIO)
                   | _ =>
                       let fs := <[fname := write_at (tdata f) (tpos f) rest]> fs in
                       match flt with
                       | CloseFault => (fs, Some ErrIO)
                       | RenameFault => (fs, Some ErrIO)
                       | _ => Rename fname destPath fs
                       end
                   end
             end
         end)
  end.

(** ** Append-mode files and the buffered writer *)

(** An open [*os.File]: the name it was opened under and its cursor. *)
Record File := { Name : string; pos : nat }.

(** [Write] of [os.File]: at the cursor, which then advances. *)
Definition File_Write (f : File) (p : list byte) (fs : fsys) : fsys * File * option error :=
  match fs !! Name f with
  | Some c =>
      (<[Name f := write_at c (pos f) p]> fs,
       {| Name := Name f; pos := (pos f + length p)%nat |}, None)
  | None => (fs, f, Some (ErrNotExist (Name f)))
  end.

(** [openFreezerFileForAppend]: [O_RDWR|O_CREATE] without [O_APPEND], then a
    seek to the end. *)
Definition openFreezerFileForAppend (filename : string) (fs : fsys) : fsys * (File + error) :=
  match fs !! filename with
  | Some c => (fs, inl {| Name := filename; pos := length c |})
  | None =>
      if is_dir filename fs then (fs, inr (ErrExist filename))
      else (<[filename := []]> fs, inl {| Name := filename; pos := 0%nat |})
  end.

(** [bufio.Writer] over a file, with the package's default buffer size. *)
Definition defaultBufSize : nat := 4096.

Record Writer := { wr : File; buf : list byte; werr : option error }.

Definition NewWriter (f : File) : Writer := {| wr := f; buf := []; werr := None |}.

Definition Available (b : Writer) : nat := (defaultBufSize - length (buf b))%nat.

Definition Flush (b : Writer) (fs : fsys) : fsys * Writer * option error :=
  match werr b with
  | Some e => (fs, b, Some e)
  | None =>
      match buf b with
      | [] => (fs, b, None)
      | _ =>
          match File_Write (wr b) (buf b) fs with
          | (fs, f, None) => (fs, {| wr := f; buf := []; werr := None |}, None)
          | (fs, f, Some e) => (fs, {| wr := f; buf := buf b; werr := Some e |}, Some e)
          end
      end
  end.

(** The loop of [Write] of [bufio.Writer]: while [p] does not fit and no error
    is pending, either write [p] straight through (empty buffer) or fill the
    buffer and flush it. Returns what is left of [p]. *)
Fixpoint Write_loop (fuel : nat) (b : Writer) (p : list byte) (nn : nat) (fs : fsys)
    : fsys * Writer * list byte * nat :=
  match fuel with
  | O => (fs, b, p, nn)
  | S fuel =>
      if bool_decide (Available b < length p)%nat && bool_decide (werr b = None) then
        if bool_decide (length (buf b) = 0%nat) then
          match File_Write (wr b) p fs with
          | (fs, f, None) =>
              Write_loop fuel {| wr := f; buf := buf b; werr := None |} [] (nn + length p) fs
          | (fs, f, Some e) =>
              Write_loop fuel {| wr := f; buf := buf b; werr := Some e |} p nn fs
          end
        else
          let n := Available b in
          let '(fs, b, _) :=
            Flush {| wr := wr b; buf := buf b ++ take n p; werr := werr b |} fs in
          Write_loop fuel b (drop n p) (nn + n) fs
      else (fs, b, p, nn)
  end.

(** [Write] of [bufio.Writer]. Two turns of the loop always reach its exit
    (lemma [Write_loop_exit]). *)
Definition Write (b : Writer) (p : list byte) (fs : fsys) : fsys * Writer * nat * option error :=
  let '(fs, b, p, nn) := Write_loop 2 b p 0 fs in
  match werr b with
  | Some e => (fs, b, nn, Some e)
  | None =>
      (fs, {| wr := wr b; buf := buf b ++ p; werr := None |}, (nn + length p)%nat, None)
  end.

(** ** Tables and index entries *)

(** Modelled from the spec: segment numbers are unsigned integers of a fixed
    width that is declared with the table type, outside this file; the spec
    suggests 32 bits. *)
Definition uint32 (z : Z) : Z := z mod 2 ^ 32.

Definition uint64 (z : Z) : Z := z mod 2 ^ 64.

Record indexEntry := { filenum : Z; offset : Z }.

(** The fixed-width index record codec, declared with [indexEntry] outside
    this file: the record width, [unmarshalBinary] and [append]. *)
Class IndexCodec := {
  indexEntrySize : nat;
  unmarshalBinary : list byte → indexEntry;
  append : indexEntry → list byte → list byte
}.

(** The fields of [freezerTable] that this file uses; [index] is the name of
    the open index file, [fileName] the table's naming of its segments. *)
Record freezerTable := {
  index : string;
  headId : Z;
  tailId : Z;
  path : string;
  fileName : Z → string
}.

Record freezer := { tables : gmap string freezerTable }.

(** [ReadAt] of [os.File]: a short read at the end of the file is [io.EOF]. *)
Definition ReadAt (name : string) (len : nat) (off : Z) (fs : fsys) : list byte + error :=
  if off <? 0 then inr ErrInvalid
  else
    match fs !! name with
    | None => inr (ErrNotExist name)
    | Some c =>
        let b := take len (drop (Z.to_nat off) c) in
        if bool_decide (length b = len) then inl b else inr EOF
    end.

Section Concatenation.
Context `{IndexCodec}.

Definition readIndex (t : freezerTable) (i : Z) (fs : fsys) : indexEntry + error :=
  match ReadAt (index t) indexEntrySize (int64 (uint64 (i * Z.of_nat indexEntrySize))) fs with
  | inr err => inr err
  | inl buffer => inl (unmarshalBinary buffer)
  end.

(** The variables of the loop of [concat]. *)
Record loopState := {
  toIndex : Writer;
  toFileId : Z;
  fromFileId : Z;
  cur : Z
}.

(** What one turn of the loop does: go on, leave the loop, or return. *)
Inductive turn :=
| Continue (st : loopState)
| Break
| Return (err : error).

(** The body of the [for] loop of [concat]. *)
Definition concat_body (to from : freezerTable) (st : loopState) (fs : fsys) : fsys * turn :=
  match readIndex from (cur st) fs with
  | inr EOF => (fs, Break)
  | inr err => (fs, Return err)
  | inl entry =>
      let '(fs, ids) :=
        if bool_decide (filenum entry ≠ fromFileId st) then
          let toFileId := uint32 (toFileId st + 1) in
          match Rename (fileName from (fromFileId st)) (fileName to toFileId) fs with
          | (fs, Some err) => (fs, inr err)
          | (fs, None) =>
              if bool_decide (fromFileId st ≠ uint32 (filenum entry + 1))
              then (fs, inr (ErrJump (filenum entry) (fromFileId st)))
              else (fs, inl (toFileId, filenum entry))
          end
        else (fs, inl (toFileId st, fromFileId st)) in
      match ids with
      | inr err => (fs, Return err)
      | inl (toFileId, fromFileId) =>
          let entry := {| filenum := toFileId; offset := offset entry |} in
          match Write (toIndex st) (append entry []) fs with
          | (fs, _, _, Some err) => (fs, Return (ErrIndexWrite err))
          | (fs, toIndex, _, None) =>
              (fs, Continue {| toIndex := toIndex; toFileId := toFileId;
                               fromFileId := fromFileId; cur := uint64 (cur st + 1) |})
          end
      end
  end.

(** The loop, for at most [fuel] turns; [None] when they do not suffice. *)
Fixpoint concat_loop (fuel : nat) (to from : freezerTable) (st : loopState) (fs : fsys)
    : option (fsys * (loopState + error)) :=
  match fuel with
  | O => None
  | S fuel =>
      match concat_body to from st fs with
      | (fs, Break) => Some (fs, inl st)
      | (fs, Return err) => Some (fs, inr err)
      | (fs, Continue st) => concat_loop fuel to from st fs
      end
  end.

Definition concat (fuel : nat) (to from : freezerTable) (fs : fsys) : option (fsys * option error) :=
  match openFreezerFileForAppend (index to) fs with
  | (fs, inr err) => Some (fs, Some err)
  | (fs, inl idx) =>
      let st := {| toIndex := NewWriter idx; toFileId := uint32 (headId to + 1);
                   fromFileId := tailId from; cur := 0 |} in
      match concat_loop fuel to from st fs with
      | None => None
      | Some (fs, inr err) => Some (fs, Some err)
      | Some (fs, inl st) =>
          match Flush (toIndex st) fs with
          | (fs, _, Some err) => Some (fs, Some err)
          | (fs, _, None) =>
              (* index.Close() *)
              Some (Rename (fileName from (fromFileId st)) (fileName to (toFileId st)) fs)
          end
      end
  end.

(** ** Store-level Concat *)

(** [Concat] returns an error or nil, or panics on the nil table that the
    lookup of a missing "headers" yields. *)
Inductive outcome := Returned (err : option error) | Panicked.

(** The [range] loop of [Concat]; [order] lists the entries of [to.tables]
    in the order the runtime yields them. *)
Fixpoint Concat_range (fuel : nat) (order : list (string * freezerTable)) (from : freezer)
    (fs : fsys) : option (fsys * option error) :=
  match order with
  | [] => Some (fs, None)
  | (name, totab) :: order =>
      match tables from !! name with
      | None => Some (fs, Some (ErrTableMissing name))
      | Some fromtab =>
          match concat fuel totab fromtab fs with
          | None => None
          | Some (fs, Some err) => Some (fs, Some (ErrConcatenating name err))
          | Some (fs, None) => Concat_range fuel order from fs
          end
      end
  end.

Definition Concat (fuel : nat) (order : list (string * freezerTable)) (to from : freezer)
    (fs : fsys) : option (fsys * outcome) :=
  match Concat_range fuel order from fs with
  | None => None
  | Some (fs, Some err) => Some (fs, Returned (Some err))
  | Some (fs, None) =>
      match tables to !! "headers", tables from !! "headers" with
      | Some totab, Some fromtab =>
          let toPath := path totab in
          let fromPath := path fromtab in
          let fs := (Rename fromPath (fromPath +:+ ".old") fs).1 in
          let fs := (Rename toPath fromPath fs).1 in
          Some (fs, Returned None)
      | _, _ => Some (fs, Panicked)
      end
  end.

End Concatenation.

(** ** A concrete codec and concrete stores *)

Definition byte_of (z : Z) : byte := default x00 (Byte.of_N (Z.to_N z)).

(** The [n] low bytes of [z], most significant first. *)
Fixpoint be_encode (n : nat) (z : Z) : list byte :=
  match n with
  | O => []
  | S n => be_encode n (z / 256) ++ [byte_of (z mod 256)]
  end.

Definition be_decode (bs : list byte) : Z :=
  foldl (λ acc b, acc * 256 + Z.of_N (Byte.to_N b)) 0 bs.

(** Modelled from the spec: the index record codec, which this file only
    calls. One fixed layout of big-endian integers, with the widths that the
    spec suggests: a 32-bit segment number, then a 32-bit offset. *)
Definition big_endian_codec : IndexCodec := {|
  indexEntrySize := 8;
  unmarshalBinary b :=
    {| filenum := be_decode (take 4 b); offset := be_decode (take 4 (drop 4 b)) |};
  append e b := b ++ be_encode 4 (filenum e) ++ be_encode 4 (offset e)
|}.

(** An index file with the given (segment number, offset) records. *)
Definition index_of (l : list (Z * Z)) : list byte :=
  flat_map (λ '(f, o), @append big_endian_codec {| filenum := f; offset := o |} []) l.

Definition bytes_of (s : string) : list byte := String.list_byte_of_string s.

(** The "headers" tables of a destination store under [to] with segments up
    to 5 and of a source store under [from] that starts at segment 2. *)
Definition to_headers : freezerTable :=
  {| index := "to/headers.cidx"; headId := 5; tailId := 0; path := "to";
     fileName := λ n, "to/headers." +:+ pretty n +:+ ".cdat" |}.

Definition from_headers : freezerTable :=
  {| index := "from/headers.cidx"; headId := 4; tailId := 2; path := "from";
     fileName := λ n, "from/headers." +:+ pretty n +:+ ".cdat" |}.

Definition to_files : list (string * list byte) :=
  [("to/headers.cidx", index_of [(5, 0); (5, 3)]);
   ("to/headers.5.cdat", bytes_of "abc")].

(** The source holds four items in the segments 2, 3 and 4. *)
Definition fs_segments : fsys :=
  list_to_map (to_files ++
    [("from/headers.cidx", index_of [(2, 0); (2, 2); (3, 1); (3, 2); (4, 1)]);
     ("from/headers.2.cdat", bytes_of "xy");
     ("from/headers.3.cdat", bytes_of "zw");
     ("from/headers.4.cdat", bytes_of "q")]).

(** The source index jumps from segment 2 to segment 4. *)
Definition fs_gap : fsys :=
  list_to_map (to_files ++
    [("from/headers.cidx", index_of [(2, 0); (2, 2); (4, 1)]);
     ("from/headers.2.cdat", bytes_of "xy");
     ("from/headers.4.cdat", bytes_of "q")]).

(** The source holds everything in its tail segment. *)
Definition fs_single : fsys :=
  list_to_map (to_files ++
    [("from/headers.cidx", index_of [(2, 0); (2, 2)]);
     ("from/headers.2.cdat", bytes_of "xy")]).

(** The source index has no record. *)
Definition fs_empty : fsys :=
  list_to_map (to_files ++
    [("from/headers.cidx", []);
     ("from/headers.2.cdat", [])]).

Definition to_store : freezer := {| tables := {[ "headers" := to_headers ]} |}.

Definition from_store : freezer := {| tables := {[ "headers" := from_headers ]} |}.

(** A "foo" table of the destination, which the source may lack. *)
Definition to_foo : freezerTable :=
  {| index := "to/foo.cidx"; headId := 0; tailId := 0; path := "to";
     fileName := λ n, "to/foo." +:+ pretty n +:+ ".cdat" |}.

Definition to_store_foo : freezer :=
  {| tables := <[ "foo" := to_foo ]> {[ "headers" := to_headers ]} |}.

(** A "bodies" table that only the source has. *)
Definition from_bodies : freezerTable :=
  {| index := "from/bodies.cidx"; headId := 0; tailId := 0; path := "from";
     fileName := λ n, "from/bodies." +:+ pretty n +:+ ".cdat" |}.

(** As [fs_single], with a leftover of an earlier promotion under the name
    that the source root is to be moved to. *)
Definition fs_stale : fsys := <["from.old/headers.cidx" := []]> fs_single.

(** A [before] callback that writes two bytes and fails. *)
Definition before_failing (f : tmpfile) : tmpfile * option error :=
  ({| tdata := write_at (tdata f) (tpos f) (bytes_of "HD"); tpos := tpos f + 2 |},
   Some (ErrCallback 1)).

(** A [before] callback that writes a three-byte header. *)
Definition before_header (f : tmpfile) : tmpfile * option error :=
  ({| tdata := write_at (tdata f) (tpos f) (bytes_of "HDR"); tpos := tpos f + 3 |}, None).

(** The names that [ioutil.TempFile] tries in the directory [to]. *)
Definition temp_names : list string := ["to/headers.cidx"; "to/183259017"; "to/771204663"].

(** Two stores that have a "bodies" table and no "headers" table; the source
    holds one item in its segment 0. *)
Definition to_bodies : freezerTable :=
  {| index := "to/bodies.cidx"; headId := 0; tailId := 0; path := "to";
     fileName := λ n, "to/bodies." +:+ pretty n +:+ ".cdat" |}.

Definition to_store_bodies : freezer := {| tables := {[ "bodies" := to_bodies ]} |}.

Definition from_store_bodies : freezer := {| tables := {[ "bodies" := from_bodies ]} |}.

Definition fs_bodies : fsys :=
  list_to_map
    [("to/bodies.cidx", []);
     ("from/bodies.cidx", index_of [(0, 0)]);
     ("from/bodies.0.cdat", bytes_of "b")].

(** ** The other ways to open a table file, and its resizing *)

(** An open [*os.File] with the access it was opened for. *)
Record Handle := { file : File; writable : bool }.

(** [openFreezerFileForReadOnly]: [O_RDONLY]. Nothing is created; a
    directory can be opened this way as well. *)
Definition openFreezerFileForReadOnly (filename : string) (fs : fsys)
    : fsys * (Handle + error) :=
  let opened := {| file := {| Name := filename; pos := 0%nat |}; writable := false |} in
  match fs !! filename with
  | Some _ => (fs, inl opened)
  | None =>
      if is_dir filename fs then (fs, inl opened)
      else (fs, inr (ErrNotExist filename))
  end.

(** [openFreezerFileTruncated]: [O_RDWR|O_CREATE|O_TRUNC]. *)
Definition openFreezerFileTruncated (filename : string) (fs : fsys)
    : fsys * (Handle + error) :=
  let opened := {| file := {| Name := filename; pos := 0%nat |}; writable := true |} in
  match fs !! filename with
  | Some _ => (<[filename := []]> fs, inl opened)
  | None =>
      if is_dir filename fs then (fs, inr (ErrExist filename))
      else (<[filename := []]> fs, inl opened)
  end.

(** [Truncate] of [os.File]: the file is cut to [size] bytes, or extended to
    them with zero bytes; the cursor stays where it is. It takes a file that
    is open for writing and a size that is not negative. *)
Definition File_Truncate (f : Handle) (size : Z) (fs : fsys) : fsys * option error :=
  if negb (writable f) || (size <? 0) then (fs, Some ErrInvalid)
  else
    match fs !! Name (file f) with
    | None => (fs, Some (ErrNotExist (Name (file f))))
    | Some c =>
        let n := Z.to_nat size in
        (<[Name (file f) := take n c ++ replicate (n - length c) x00]> fs, None)
    end.

(** [Seek(0, io.SeekEnd)] of [os.File]. *)
Definition File_SeekEnd (f : Handle) (fs : fsys) : Handle + error :=
  match fs !! Name (file f) with
  | None => inr (ErrNotExist (Name (file f)))
  | Some c =>
      inl {| file := {| Name := Name (file f); pos := length c |}; writable := writable f |}
  end.

(** [truncateFreezerFile]: resize, then seek to the end. *)
Definition truncateFreezerFile (f : Handle) (size : Z) (fs : fsys)
    : fsys * Handle * option error :=
  match File_Truncate f size fs with
  | (fs, Some err) => (fs, f, Some err)
  | (fs, None) =>
      match File_SeekEnd f fs with
      | inr err => (fs, f, Some err)
      | inl f => (fs, f, None)
      end
  end.

(** ** Vocabulary of the statements *)

(** The path [k] is neither an end of the rename of [old] to [new] nor
    beneath one. *)
Definition untouched (old new k : string) : Prop :=
  k ≠ old ∧ k ≠ new ∧ subpath old k = None ∧ subpath new k = None.

Definition unrelated (a b : string) : Prop := nested a b = false ∧ nested b a = false.

(** The errors of [os.Rename]. *)
Definition rename_error (e : error) : Prop :=
  (∃ n, e = ErrExist n) ∨ e = ErrInvalid ∨ (∃ n, e = ErrNotExist n).

(** What the [before] callback of [copyFrom] leaves in the temporary file:
    the bytes [prefix], with the cursor behind them. *)
Definition writes_prefix (before : option (tmpfile → tmpfile * option error))
    (prefix : list byte) : Prop :=
  match before with
  | Some b => b {| tdata := []; tpos := 0 |} = ({| tdata := prefix; tpos := length prefix |}, None)
  | None => prefix = []
  end.

Section Vocabulary.
Context `{IndexCodec}.

(** The codec writes records of the declared width, and a record fits the
    buffer of the writer. *)
Definition fixed_width : Prop :=
  (0 < indexEntrySize ≤ defaultBufSize)%nat ∧
  ∀ e, length (append e []) = indexEntrySize.

(** The [i]-th record of an index file that holds [c], and the number of
    whole records in it. *)
Definition record_at (c : list byte) (i : nat) : indexEntry :=
  unmarshalBinary (take indexEntrySize (drop (i * indexEntrySize) c)).

Definition record_count (c : list byte) : nat := (length c / indexEntrySize)%nat.

Definition encode_all (l : list indexEntry) : list byte :=
  flat_map (λ e, append e []) l.

(** The first [n] records of an index file that holds [c], with the segment
    number replaced by [tid]. *)
Definition renumbered (tid : Z) (c : list byte) (n : nat) : list indexEntry :=
  map (λ j, {| filenum := tid; offset := offset (record_at c j) |}) (seq 0 n).

(** How many of [t] bytes written through the buffered writer, in pieces no
    longer than its buffer, have reached the file. *)
Definition flushed_len (t : nat) : nat :=
  (defaultBufSize * ((t - 1) / defaultBufSize))%nat.

(** The writer [b] on the file [name], which held [c0] when it was opened,
    after [stream] was written to [b]: the file holds the part of the
    stream that was flushed, the buffer the rest. *)
Definition writer_inv (name : string) (c0 stream : list byte) (b : Writer) (fs : fsys)
    : Prop :=
  werr b = None ∧ Name (wr b) = name ∧
  ∃ flushed,
    stream = flushed ++ buf b ∧
    fs !! name = Some (c0 ++ flushed) ∧
    pos (wr b) = length (c0 ++ flushed) ∧
    (length (buf b) ≤ defaultBufSize)%nat ∧
    (∃ q, length flushed = q * defaultBufSize)%nat ∧
    (buf b = [] → flushed = []).

(** The segment number that the loop of [concat] holds in [fromFileId] when
    it reads record [j]: the one of the record before, the tail of the table
    at the start. *)
Definition seg_before (c : list byte) (tail : Z) (j : nat) : Z :=
  match j with
  | O => tail
  | S i => filenum (record_at c i)
  end.

(** The loop goes on past a record with segment number [f], [prev] being the
    number before it, only if [f] is [prev], or [prev] is [f + 1]. *)
Definition accepted (prev f : Z) : Prop := f = prev ∨ prev = uint32 (f + 1).

(** The loop of [concat] before its [k]-th turn, the source index holding
    [cs]: the records before [k] were all accepted and have been translated
    to [written], which went to the writer. *)
Definition loop_inv (to from : freezerTable) (cs c0 : list byte) (k : nat)
    (written : list indexEntry) (st : loopState) (fs : fsys) : Prop :=
  fs !! index from = Some cs ∧
  cur st = Z.of_nat k ∧
  (k * indexEntrySize ≤ length cs)%nat ∧
  length written = k ∧
  writer_inv (index to) c0 (encode_all written) (toIndex st) fs ∧
  (∀ j e, written !! j = Some e → offset e = offset (record_at cs j)) ∧
  fromFileId st = seg_before cs (tailId from) k ∧
  ∀ j, (j < k)%nat → accepted (seg_before cs (tailId from) j) (filenum (record_at cs j)).

(** The index files of the two tables are different files, and no segment
    file of either table is one of them or contains one. *)
Definition index_files_apart (to from : freezerTable) : Prop :=
  index from ≠ index to ∧
  ∀ a b, untouched (fileName from a) (fileName to b) (index from) ∧
         untouched (fileName from a) (fileName to b) (index to).

End Vocabulary.

(** [order] is an order in which [range] may yield the tables of [to]. *)
Definition range_of (to : freezer) (order : list (string * freezerTable)) : Prop :=
  order ≡ₚ map_to_list (tables to).

(** * Properties *)

(** ** Path names *)

Lemma append_nil (b : string) : "" +:+ b = b.
Proof. reflexivity. Qed.

Lemma append_cons (x : Ascii.ascii) (a b : string) : String x a +:+ b = String x (a +:+ b).
Proof. reflexivity. Qed.

Lemma append_assoc (a b c : string) : (a +:+ b) +:+ c = a +:+ (b +:+ c).
Proof.
  induction a as [|x a IH]; [done |].
  by rewrite !append_cons, IH.
Qed.

Lemma strip_prefix_app (p r : string) : strip_prefix p (p +:+ r) = Some r.
Proof.
  induction p as [|x p IH]; [done |].
  rewrite append_cons. simpl. by rewrite decide_True.
Qed.

Lemma strip_prefix_Some (p s r : string) : strip_prefix p s = Some r → s = p +:+ r.
Proof.
  revert s. induction p as [|x p IH]; intros s; simpl.
  - by intros [= ->].
  - destruct s as [|y s]; [done |].
    case_decide; [| done]. intros Hs. subst y.
    by rewrite append_cons, (IH _ Hs).
Qed.

Lemma strip_prefix_incomparable (a b r : string) :
  strip_prefix a b = None → strip_prefix b a = None → strip_prefix a (b +:+ r) = None.
Proof.
  revert b. induction a as [|x a IH]; intros b; [done |].
  destruct b as [|y b]; [done |].
  rewrite append_cons. simpl.
  repeat case_decide; subst; try done. apply IH.
Qed.

Lemma subpath_join (d rel : string) : subpath d (d +:+ "/" +:+ rel) = Some rel.
Proof. unfold subpath. by rewrite <- append_assoc, strip_prefix_app. Qed.

Lemma subpath_Some (d p rel : string) : subpath d p = Some rel → p = d +:+ "/" +:+ rel.
Proof. unfold subpath. intros Hs. by rewrite (strip_prefix_Some _ _ _ Hs), append_assoc. Qed.

Lemma nested_false (a b : string) :
  nested a b = false ↔ strip_prefix (a +:+ "/") (b +:+ "/") = None.
Proof.
  unfold nested. rewrite bool_decide_eq_false, <- eq_None_not_Some. done.
Qed.

Lemma unrelated_subpath (a b rel : string) :
  unrelated a b → subpath a (b +:+ "/" +:+ rel) = None.
Proof.
  intros [Hab Hba]. apply nested_false in Hab, Hba.
  unfold subpath. rewrite <- append_assoc. by apply strip_prefix_incomparable.
Qed.

Lemma unrelated_sym (a b : string) : unrelated a b → unrelated b a.
Proof. intros [? ?]. by split. Qed.

Lemma reroot_involutive (old new p : string) :
  unrelated old new → reroot old new (reroot old new p) = p.
Proof.
  intros Hun. unfold reroot at 2.
  destruct (subpath old p) as [rel|] eqn:Hold.
  - unfold reroot. rewrite (unrelated_subpath _ _ _ Hun), subpath_join.
    symmetry. by apply subpath_Some.
  - destruct (subpath new p) as [rel|] eqn:Hnew.
    + unfold reroot. rewrite subpath_join. symmetry. by apply subpath_Some.
    + unfold reroot. by rewrite Hold, Hnew.
Qed.

Lemma reroot_inj (old new : string) : unrelated old new → Inj (=) (=) (reroot old new).
Proof.
  intros Hun p q Hpq.
  rewrite <- (reroot_involutive old new p Hun), <- (reroot_involutive old new q Hun).
  by rewrite Hpq.
Qed.

Lemma reroot_untouched (old new k : string) : untouched old new k → reroot old new k = k.
Proof. intros (_ & _ & Ho & Hn). unfold reroot. by rewrite Ho, Hn. Qed.

(** ** Rename *)

(** A rename leaves every path alone that is neither one of its ends nor
    beneath one. *)
Lemma Rename_untouched (old new k : string) (fs : fsys) :
  untouched old new k → (Rename old new fs).1 !! k = fs !! k.
Proof.
  intros Hk. pose proof Hk as (Hko & Hkn & _ & _). unfold Rename.
  destruct (fs !! old) as [c|] eqn:Hold.
  - destruct (is_dir new fs); simpl; [done |].
    by rewrite lookup_insert_ne, lookup_delete_ne.
  - destruct (is_dir old fs); [| done].
    case_decide; [done |].
    destruct (nested old new) eqn:Hon; [done |].
    destruct (nested new old) eqn:Hno; [done |]. simpl.
    destruct (bool_decide (is_Some (fs !! new)) || is_dir new fs); [done |]. simpl.
    pose proof (reroot_inj old new (conj Hon Hno)) as Hinj.
    rewrite <- (reroot_untouched old new k Hk) at 1.
    by rewrite (lookup_kmap (reroot old new)).
Qed.

(** A rename that fails changes nothing. *)
Lemma Rename_error (old new : string) (fs fs' : fsys) (e : error) :
  Rename old new fs = (fs', Some e) → fs' = fs.
Proof.
  unfold Rename. intros Hr.
  repeat (first [ case_match | case_decide ]; simplify_eq; try done).
Qed.

Lemma Rename_error_kind (old new : string) (fs fs' : fsys) (e : error) :
  Rename old new fs = (fs', Some e) → rename_error e.
Proof.
  unfold Rename, rename_error. intros Hr.
  repeat (first [ case_match | case_decide ]; simplify_eq; eauto).
Qed.

Lemma rename_error_not_jump (a b : Z) : ¬ rename_error (ErrJump a b).
Proof. by intros [[? ?]|[?|[? ?]]]. Qed.

Lemma Rename_file (old new : string) (fs : fsys) (c : list byte) :
  fs !! old = Some c → is_dir new fs = false →
  Rename old new fs = (<[new := c]> (delete old fs), None).
Proof. intros Hold Hdir. unfold Rename. by rewrite Hold, Hdir. Qed.

(** A directory that was renamed holds under its new name what it held
    under the old one. *)
Lemma Rename_directory (old new rel : string) (fs fs' : fsys) :
  fs !! old = None → old ≠ new → Rename old new fs = (fs', None) →
  fs' !! (new +:+ "/" +:+ rel) = fs !! (old +:+ "/" +:+ rel).
Proof.
  intros Hold Hne. unfold Rename. rewrite Hold.
  destruct (is_dir old fs); [| done].
  rewrite decide_False by done.
  destruct (nested old new) eqn:Hon; [done |].
  destruct (nested new old) eqn:Hno; [done |]. simpl.
  destruct (bool_decide (is_Some (fs !! new)) || is_dir new fs); [done |].
  intros [= <-].
  pose proof (reroot_inj old new (conj Hon Hno)) as Hinj.
  assert (reroot old new (old +:+ "/" +:+ rel) = new +:+ "/" +:+ rel) as <-.
  { unfold reroot. by rewrite subpath_join. }
  by rewrite (lookup_kmap (reroot old new)).
Qed.

(** ** copyFrom *)

Lemma TempFile_inl (names : list string) (fs fs0 : fsys) (fname : string) :
  TempFile names fs = (fs0, inl fname) →
  fs !! fname = None ∧ fname ∈ names ∧ fs0 = <[fname := []]> fs.
Proof.
  unfold TempFile. destruct (list_find _ names) as [[i n]|] eqn:Hfind; [| done].
  intros [= <- <-]. apply list_find_Some in Hfind as (Hi & Hn & _).
  split_and!; [done | by eapply list_elem_of_lookup_2 | done].
Qed.

Lemma TempFile_inr (names : list string) (fs fs0 : fsys) (e : error) :
  TempFile names fs = (fs0, inr e) → fs0 = fs.
Proof.
  unfold TempFile. destruct (list_find _ names) as [[i n]|]; [done |].
  by intros [= <-].
Qed.

Lemma write_at_end (prefix p : list byte) :
  write_at prefix (length prefix) p = prefix ++ p.
Proof.
  unfold write_at.
  rewrite take_ge, Nat.sub_diag, drop_ge by lia.
  simpl. by rewrite app_nil_r.
Qed.

(** The temporary file is gone when [copyFrom] returns, and the file system
    is then either as it was or differs in the destination alone. *)
Lemma copyFrom_cases (flt : fault) (names : list string) (srcPath destPath : string)
    (off : Z) (before : option (tmpfile → tmpfile * option error)) (fs fs' : fsys)
    (r : option error) :
  copyFrom flt names srcPath destPath off before fs = (fs', r) →
  match r with
  | Some _ => fs' = fs
  | None =>
      flt = NoFault ∧
      ∃ fname f src,
        TempFile names fs = (<[fname := []]> fs, inl fname) ∧
        match before with
        | Some b => b {| tdata := []; tpos := 0 |} = (f, None)
        | None => f = {| tdata := []; tpos := 0 |}
        end ∧
        <[fname := tdata f]> fs !! srcPath = Some src ∧ 0 ≤ int64 off ∧
        fs' = delete fname
                (<[destPath := write_at (tdata f) (tpos f) (drop (Z.to_nat off) src)]> fs)
  end.
Proof.
  unfold copyFrom.
  destruct (TempFile names fs) as [fs0 [fname|e]] eqn:Htmp.
  2: { apply TempFile_inr in Htmp as ->. by intros [= <- <-]. }
  pose proof (TempFile_inl _ _ _ _ Htmp) as (Hfresh & Hin & ->).
  assert (∀ x y : list byte, delete fname (<[fname := x]> (<[fname := y]> fs)) = fs) as Hgone.
  { intros x y. by rewrite insert_insert_eq, delete_insert_id. }
  assert (∀ x y z : list byte,
    delete fname (<[fname := x]> (<[fname := y]> (<[fname := z]> fs))) = fs) as Hgone3.
  { intros x y z. by rewrite !insert_insert_eq, delete_insert_id. }
  destruct (match before with Some b => b _ | None => _ end) as [f berr] eqn:Hb.
  destruct berr as [e|]; simpl.
  { intros [= <- <-]. apply Hgone. }
  destruct (<[fname:=tdata f]> (<[fname:=[]]> fs) !! srcPath) as [src|] eqn:Hsrc; simpl.
  2: { intros [= <- <-]. apply Hgone. }
  destruct (int64 off <? 0) eqn:Hoff; simpl.
  { intros [= <- <-]. apply Hgone. }
  destruct flt; simpl; try (intros [= <- <-]; apply Hgone3).
  destruct (Rename fname destPath _) as [fs3 [e|]] eqn:Hren; simpl; intros [= <- <-].
  { apply Rename_error in Hren as ->. apply Hgone3. }
  split; [done |]. exists fname, f, src.
  rewrite insert_insert_eq in Hsrc.
  split_and!; [done | | done | lia |].
  { destruct before; [done | by inversion Hb]. }
  unfold Rename in Hren. rewrite lookup_insert_eq in Hren.
  destruct (is_dir destPath _); [done |]. injection Hren as <-.
  f_equal. rewrite !insert_insert_eq, delete_insert_id; done.
Qed.

(** C4. After a successful [copyFrom] the destination holds the prefix that
    the [before] callback wrote, followed by the source from [offset] on;
    also when the source and the destination are the same path. The
    temporary names are names other than the destination. *)
Theorem copyFrom_content (flt : fault) (names : list string) (srcPath destPath : string)
    (off : Z) (before : option (tmpfile → tmpfile * option error)) (fs fs' : fsys)
    (sourceBytes prefixBytes : list byte) :
  fs !! srcPath = Some sourceBytes →
  destPath ∉ names →
  writes_prefix before prefixBytes →
  copyFrom flt names srcPath destPath off before fs = (fs', None) →
  fs' !! destPath = Some (prefixBytes ++ drop (Z.to_nat off) sourceBytes).
Proof.
  intros Hsrc Hdest Hpre Hcopy.
  apply copyFrom_cases in Hcopy as (_ & fname & f & src & Htmp & Hb & Hs & _ & ->).
  apply TempFile_inl in Htmp as (Hfresh & Hin & _).
  assert (fname ≠ destPath) as Hne by (intros ->; done).
  assert (fname ≠ srcPath) as Hns by (intros ->; congruence).
  rewrite lookup_insert_ne in Hs by done.
  assert (src = sourceBytes) as -> by congruence.
  assert (f = {| tdata := prefixBytes; tpos := length prefixBytes |}) as ->.
  { unfold writes_prefix in Hpre. destruct before; [congruence | by subst]. }
  rewrite lookup_delete_ne, lookup_insert_eq by done. simpl.
  by rewrite write_at_end.
Qed.

(** C5. Whatever fails in [copyFrom], it returns the error with the file
    system as it found it: the temporary file is removed and the destination
    is untouched. It succeeds only when nothing failed (the temporary file
    was created, the callback returned no error, the source was opened, the
    offset was accepted, and the copy, the close and the rename went
    through), and then the file system differs from the one it found in the
    destination alone, if at all. *)
Theorem copyFrom_atomic (flt : fault) (names : list string) (srcPath destPath : string)
    (off : Z) (before : option (tmpfile → tmpfile * option error)) (fs fs' : fsys)
    (r : option error) :
  copyFrom flt names srcPath destPath off before fs = (fs', r) →
  (∀ fs0 fname, TempFile names fs = (fs0, inl fname) → fs' !! fname = None) ∧
  match r with
  | Some _ => fs' = fs ∧ fs' !! destPath = fs !! destPath
  | None =>
      flt = NoFault ∧
      (∃ fname, (TempFile names fs).2 = inl fname) ∧
      (∀ b, before = Some b → (b {| tdata := []; tpos := 0 |}).2 = None) ∧
      (is_Some (fs !! srcPath) ∨ srcPath ∈ names) ∧
      0 ≤ int64 off ∧
      (fs' = fs ∨ ∃ data, fs' = <[destPath := data]> fs)
  end.
Proof.
  intros Hcopy. pose proof (copyFrom_cases _ _ _ _ _ _ _ _ _ Hcopy) as Hcases.
  destruct r as [e|].
  - subst fs'. split; [| done].
    intros fs0 fname Htmp. by apply TempFile_inl in Htmp as (? & _).
  - destruct Hcases as (Hflt & fname & f & src & Htmp & Hb & Hsrc & Hoff & ->).
    pose proof (TempFile_inl _ _ _ _ Htmp) as (Hfresh & Hin & _).
    split; [| split_and!; [done | | | | done |]].
    + intros fs0 fname' Htmp'. assert (fname' = fname) as -> by congruence.
      apply lookup_delete_eq.
    + exists fname. by rewrite Htmp.
    + intros b ->. by rewrite Hb.
    + destruct (decide (fname = srcPath)) as [->|Hne]; [by right | left].
      rewrite lookup_insert_ne in Hsrc by done. by rewrite Hsrc.
    + destruct (decide (fname = destPath)) as [->|Hne].
      * left. by rewrite delete_insert_id.
      * right. eexists. rewrite delete_insert_ne by done. by rewrite delete_id.
Qed.

(** ** The buffered writer *)

Lemma File_Write_end (f : File) (p c : list byte) (fs : fsys) :
  fs !! Name f = Some c → pos f = length c →
  File_Write f p fs
  = (<[Name f := c ++ p]> fs, {| Name := Name f; pos := (length c + length p)%nat |}, None).
Proof.
  intros Hc Hpos. unfold File_Write. by rewrite Hc, Hpos, write_at_end.
Qed.

Lemma defaultBufSize_pos : (0 < defaultBufSize)%nat.
Proof. unfold defaultBufSize. lia. Qed.

Lemma flushed_len_spec (q b : nat) :
  (b ≤ defaultBufSize)%nat → (b = 0%nat → q = 0%nat) →
  flushed_len (q * defaultBufSize + b) = (q * defaultBufSize)%nat.
Proof.
  intros Hb Hq. unfold flushed_len.
  destruct (decide (b = 0%nat)) as [->|Hne].
  - rewrite (Hq eq_refl). done.
  - replace (q * defaultBufSize + b - 1)%nat with ((b - 1) + q * defaultBufSize)%nat by lia.
    rewrite Nat.div_add by done.
    rewrite (Nat.div_small (b - 1)) by lia. lia.
Qed.

Section Writer.
Context `{IndexCodec}.

#[local] Opaque defaultBufSize.

Lemma writer_inv_frame (name : string) (c0 stream : list byte) (b : Writer) (fs fs' : fsys) :
  fs' !! name = fs !! name → writer_inv name c0 stream b fs → writer_inv name c0 stream b fs'.
Proof.
  intros Heq (? & ? & flushed & ? & ? & ?).
  split_and!; [done | done |]. exists flushed. by rewrite Heq.
Qed.

(** What has reached the file is a prefix of the stream, of the length that
    [flushed_len] gives. *)
Lemma writer_inv_disk (name : string) (c0 stream : list byte) (b : Writer) (fs : fsys) :
  writer_inv name c0 stream b fs →
  fs !! name = Some (c0 ++ take (flushed_len (length stream)) stream).
Proof.
  intros (_ & _ & flushed & -> & Hfs & _ & Hbuf & [q Hq] & Hnil).
  rewrite Hfs. do 2 f_equal.
  rewrite length_app, Hq, flushed_len_spec.
  - by rewrite <- Hq, take_app_length.
  - done.
  - intros Hb. apply length_zero_iff_nil in Hb. rewrite (Hnil Hb) in Hq.
    cbn [length] in Hq. pose proof defaultBufSize_pos. nia.
Qed.

Lemma NewWriter_inv (name : string) (c0 : list byte) (fs : fsys) :
  fs !! name = Some c0 →
  writer_inv name c0 [] (NewWriter {| Name := name; pos := length c0 |}) fs.
Proof.
  intros Hfs. split_and!; [done | done |]. exists []. simpl.
  rewrite app_nil_r. split_and!; try done; [lia | by exists 0%nat].
Qed.

Lemma Write_loop_fits (fuel : nat) (b : Writer) (p : list byte) (nn : nat) (fs : fsys) :
  (length p ≤ Available b)%nat → Write_loop fuel b p nn fs = (fs, b, p, nn).
Proof.
  intros Hfit. destruct fuel; [done |]. simpl.
  by rewrite (bool_decide_eq_false_2 (Available b < length p)%nat) by lia.
Qed.

Lemma Write_loop_fill (fuel : nat) (b : Writer) (p : list byte) (nn : nat) (fs : fsys) :
  (Available b < length p)%nat → werr b = None → buf b ≠ [] →
  Write_loop (S fuel) b p nn fs
  = let '(fs, b', _) :=
      Flush {| wr := wr b; buf := buf b ++ take (Available b) p; werr := werr b |} fs in
    Write_loop fuel b' (drop (Available b) p) (nn + Available b) fs.
Proof.
  intros Hfit Herr Hbuf. simpl.
  rewrite (bool_decide_eq_true_2 (Available b < length p)%nat) by done.
  rewrite (bool_decide_eq_true_2 (werr b = None)) by done. simpl.
  rewrite bool_decide_eq_false_2; [done |].
  by intros ?%length_zero_iff_nil.
Qed.

Lemma Write_loop_done (fuel : nat) (b : Writer) (p : list byte) (nn : nat) (fs : fsys) :
  (length p ≤ Available b)%nat ∨ werr b ≠ None → Write_loop fuel b p nn fs = (fs, b, p, nn).
Proof.
  intros [Hfit|Herr]; [by apply Write_loop_fits |].
  destruct fuel; [done |]. simpl.
  rewrite (bool_decide_eq_false_2 (werr b = None)) by done.
  by rewrite andb_false_r.
Qed.

Lemma Write_loop_unfold (fuel : nat) (b : Writer) (p : list byte) (nn : nat) (fs : fsys) :
  Write_loop (S fuel) b p nn fs
  = if bool_decide (Available b < length p)%nat && bool_decide (werr b = None) then
      if bool_decide (length (buf b) = 0%nat) then
        match File_Write (wr b) p fs with
        | (fs, f, None) =>
            Write_loop fuel {| wr := f; buf := buf b; werr := None |} [] (nn + length p) fs
        | (fs, f, Some e) =>
            Write_loop fuel {| wr := f; buf := buf b; werr := Some e |} p nn fs
        end
      else
        let n := Available b in
        let '(fs, b, _) :=
          Flush {| wr := wr b; buf := buf b ++ take n p; werr := werr b |} fs in
        Write_loop fuel b (drop n p) (nn + n) fs
    else (fs, b, p, nn).
Proof. reflexivity. Qed.

(** With an empty buffer the loop of [Write] is over after one turn. *)
Lemma Write_loop_direct (fuel : nat) (b : Writer) (p : list byte) (nn : nat) (fs : fsys) :
  buf b = [] → Write_loop (S fuel) b p nn fs = Write_loop 1 b p nn fs.
Proof.
  intros Hbuf. rewrite (Write_loop_unfold fuel), (Write_loop_unfold 0).
  destruct (bool_decide (Available b < length p)%nat && bool_decide (werr b = None)); [| done].
  rewrite Hbuf. cbn [length]. rewrite bool_decide_eq_true_2 by done.
  destruct (File_Write (wr b) p fs) as [[fs1 f1] [e|]]; apply Write_loop_done.
  - by right.
  - left. cbn [length]. lia.
Qed.

(** The loop of [Write] is over after two turns at most: further turns
    change nothing. *)
Lemma Write_loop_exit (k : nat) (b : Writer) (p : list byte) (nn : nat) (fs : fsys) :
  Write_loop (2 + k) b p nn fs = Write_loop 2 b p nn fs.
Proof.
  change (2 + k)%nat with (S (S k)).
  rewrite (Write_loop_unfold (S k)), (Write_loop_unfold 1).
  destruct (bool_decide (Available b < length p)%nat && bool_decide (werr b = None)) eqn:Hturn;
    [| done].
  apply andb_prop in Hturn as [_ Hnone%bool_decide_eq_true].
  destruct (bool_decide (length (buf b) = 0%nat)) eqn:Hempty.
  { apply bool_decide_eq_true, length_zero_iff_nil in Hempty.
    destruct (File_Write (wr b) p fs) as [[fs1 f1] [e|]].
    - rewrite (Write_loop_done (S k)), (Write_loop_done 1); [done | by right | by right].
    - by rewrite (Write_loop_direct k). }
  cbv zeta.
  destruct (Flush _ fs) as [[fs1 b1] r] eqn:Hflush.
  assert (buf b1 = [] ∨ werr b1 ≠ None) as [Hb1|Hb1].
  { unfold Flush in Hflush. cbn [werr buf wr] in Hflush. rewrite Hnone in Hflush.
    destruct (buf b ++ take (Available b) p) as [|x l] eqn:Hfull.
    - injection Hflush as <- <- <-. by left.
    - destruct (File_Write (wr b) (x :: l) fs) as [[fs2 f2] [e|]];
        injection Hflush as <- <- <-; [by right | by left]. }
  - by rewrite (Write_loop_direct k).
  - rewrite (Write_loop_done (S k)), (Write_loop_done 1); [done | by right | by right].
Qed.

(** A write of a piece that fits the buffer never fails, adds the piece to
    the stream and touches no other file. *)
Lemma Write_inv (name : string) (c0 stream p : list byte) (b : Writer) (fs : fsys) :
  writer_inv name c0 stream b fs →
  (0 < length p ≤ defaultBufSize)%nat →
  ∃ fs' b' n,
    Write b p fs = (fs', b', n, None) ∧
    writer_inv name c0 (stream ++ p) b' fs' ∧
    ∀ k, k ≠ name → fs' !! k = fs !! k.
Proof.
  intros (Herr & Hname & flushed & -> & Hfs & Hpos & Hbuf & [q Hq] & Hnil) Hp.
  unfold Write.
  destruct (decide (Available b < length p)%nat) as [Hfit|Hfit].
  - assert (buf b ≠ []) as Hne.
    { intros Hb. unfold Available in Hfit. rewrite Hb in Hfit. cbn [length] in Hfit. lia. }
    rewrite Write_loop_fill by done.
    unfold Flush. cbn [werr buf wr]. rewrite Herr.
    destruct (buf b ++ take (Available b) p) as [|x l] eqn:Hfull.
    { by apply app_eq_nil in Hfull as [? _]. }
    rewrite <- Hfull. clear x l Hfull.
    rewrite (File_Write_end _ _ (c0 ++ flushed)) by (by rewrite ?Hname).
    unfold Available in *.
    rewrite Write_loop_fits.
    2: { unfold Available. simpl. rewrite length_drop. lia. }
    simpl. eexists _, _, _. split; [reflexivity |]. split.
    + split_and!; [done | done |]. simpl.
      exists (flushed ++ buf b ++ take (defaultBufSize - length (buf b)) p).
      rewrite Hname, lookup_insert_eq. split_and!.
      * rewrite <- !app_assoc. do 2 f_equal. by rewrite take_drop.
      * by rewrite <- !app_assoc.
      * rewrite !length_app. lia.
      * rewrite length_drop. lia.
      * exists (S q). rewrite !length_app, length_take, Hq. lia.
      * intros Hd. apply (f_equal length) in Hd. rewrite length_drop in Hd.
        simpl in Hd. lia.
    + intros k Hk. rewrite Hname. by rewrite lookup_insert_ne.
  - rewrite Write_loop_fits by lia. rewrite Herr.
    eexists _, _, _. split; [reflexivity |]. split; [| done].
    split_and!; [done | done |]. simpl. exists flushed.
    unfold Available in Hfit.
    split_and!; try done.
    + by rewrite app_assoc.
    + rewrite length_app. lia.
    + by exists q.
    + intros Hd. apply (f_equal length) in Hd. rewrite length_app in Hd.
      simpl in Hd. lia.
Qed.

(** The final flush brings the whole stream to the file. *)
Lemma Flush_inv (name : string) (c0 stream : list byte) (b : Writer) (fs : fsys) :
  writer_inv name c0 stream b fs →
  ∃ fs' b',
    Flush b fs = (fs', b', None) ∧
    fs' !! name = Some (c0 ++ stream) ∧
    ∀ k, k ≠ name → fs' !! k = fs !! k.
Proof.
  intros (Herr & Hname & flushed & -> & Hfs & Hpos & Hbuf & _ & Hnil).
  unfold Flush. rewrite Herr.
  destruct (buf b) as [|x l] eqn:Hb.
  - eexists _, _. split; [reflexivity |]. by rewrite app_nil_r.
  - rewrite (File_Write_end _ _ (c0 ++ flushed)) by (by rewrite ?Hname).
    eexists _, _. split; [reflexivity |]. rewrite Hname. split.
    + by rewrite lookup_insert_eq, app_assoc.
    + intros k Hk. by rewrite lookup_insert_ne.
Qed.

End Writer.

(** ** The loop of concat *)

Section Loop.
Context `{IndexCodec}.
Variables to from : freezerTable.
Variables cs c0 : list byte.
Hypothesis Hwidth : fixed_width.
Hypothesis Hapart : index_files_apart to from.
Hypothesis Hsize : Z.of_nat (length cs) < 2 ^ 63.

Lemma record_count_lt (k : nat) :
  (k < record_count cs ↔ S k * indexEntrySize ≤ length cs)%nat.
Proof.
  destruct Hwidth as [[Hpos _] _]. unfold record_count. split.
  - intros Hk. assert (S k ≤ length cs / indexEntrySize)%nat as Hle by lia.
    pose proof (Nat.Div0.mul_div_le (length cs) indexEntrySize). nia.
  - intros Hk. apply Nat.div_le_lower_bound; lia.
Qed.

Lemma readIndex_at (k : nat) (fs : fsys) :
  fs !! index from = Some cs → (k * indexEntrySize ≤ length cs)%nat →
  readIndex from (Z.of_nat k) fs
  = if decide (k < record_count cs)%nat then inl (record_at cs k) else inr EOF.
Proof.
  intros Hfs Hk. unfold readIndex, ReadAt, uint64, int64.
  assert (0 ≤ Z.of_nat k * Z.of_nat indexEntrySize < 2 ^ 63) as Hoff by nia.
  rewrite Z.mod_small by lia.
  destruct (Z.ltb_spec (Z.of_nat k * Z.of_nat indexEntrySize) (2 ^ 63)); [| lia].
  destruct (Z.ltb_spec (Z.of_nat k * Z.of_nat indexEntrySize) 0); [lia |].
  rewrite Hfs.
  replace (Z.to_nat (Z.of_nat k * Z.of_nat indexEntrySize)) with (k * indexEntrySize)%nat by lia.
  rewrite length_take, length_drop.
  destruct (decide (k < record_count cs)%nat) as [Hlt|Hge].
  - apply record_count_lt in Hlt.
    rewrite bool_decide_eq_true_2 by lia. done.
  - rewrite record_count_lt in Hge.
    rewrite bool_decide_eq_false_2 by lia. done.
Qed.

Lemma encode_all_snoc (l : list indexEntry) (e : indexEntry) :
  encode_all (l ++ [e]) = encode_all l ++ append e [].
Proof. unfold encode_all. rewrite flat_map_app. simpl. by rewrite app_nil_r. Qed.

(** One turn of the loop keeps the invariant, or ends the loop with the
    source index as it was and the writer as the turn found it. *)
Lemma concat_body_spec (k : nat) (written : list indexEntry) (st : loopState) (fs : fsys) :
  loop_inv to from cs c0 k written st fs →
  match concat_body to from st fs with
  | (fs', Continue st') => ∃ e, loop_inv to from cs c0 (S k) (written ++ [e]) st' fs'
  | (fs', Break) => fs' = fs ∧ k = record_count cs
  | (fs', Return err) =>
      (k < record_count cs)%nat ∧ fs' !! index from = Some cs ∧
      writer_inv (index to) c0 (encode_all written) (toIndex st) fs' ∧
      (err = ErrJump (filenum (record_at cs k)) (fromFileId st) ∨ rename_error err)
  end.
Proof.
  intros (Hfrom & Hcur & Hk & Hlen & Hw & Hoff & Hseg & Hacc).
  destruct Hapart as [Hne Hunt]. destruct Hwidth as [[Hpos Hfit] Henc].
  unfold concat_body. rewrite Hcur, readIndex_at by done.
  destruct (decide (k < record_count cs)%nat) as [Hlt|Hge].
  2: { split; [done |]. rewrite record_count_lt in Hge. unfold record_count.
       apply (Nat.div_unique _ _ _ (length cs - k * indexEntrySize)); lia. }
  set (entry := record_at cs k).
  (* the write that ends a turn which got past the boundary *)
  assert (∀ fs1 t, fs1 !! index from = Some cs →
            writer_inv (index to) c0 (encode_all written) (toIndex st) fs1 →
            accepted (fromFileId st) (filenum entry) →
            ∃ fs2 b2 n,
              Write (toIndex st) (append {| filenum := t; offset := offset entry |} []) fs1
              = (fs2, b2, n, None) ∧
              loop_inv to from cs c0 (S k)
                (written ++ [{| filenum := t; offset := offset entry |}])
                {| toIndex := b2; toFileId := t; fromFileId := filenum entry;
                   cur := uint64 (Z.of_nat k + 1) |} fs2) as Hwrite.
  { intros fs1 t Hfrom1 Hw1 Hentry.
    destruct (Write_inv _ _ _ (append {| filenum := t; offset := offset entry |} []) _ _ Hw1)
      as (fs2 & b2 & n & HW & Hw2 & Hframe).
    { rewrite Henc. lia. }
    exists fs2, b2, n. split; [done |].
    apply record_count_lt in Hlt.
    split_and!; simpl.
    - by rewrite Hframe.
    - unfold uint64. rewrite Z.mod_small; lia.
    - lia.
    - rewrite length_app. simpl. lia.
    - by rewrite encode_all_snoc.
    - intros j e Hj. destruct (decide (j < length written)%nat) as [Hjl|Hjl].
      + rewrite lookup_app_l in Hj by done. by apply Hoff.
      + rewrite lookup_app_r in Hj by lia.
        destruct (j - length written)%nat as [|?] eqn:Hd; [| done].
        injection Hj as <-. simpl. replace j with k by lia. done.
    - done.
    - intros j Hj. destruct (decide (j = k)) as [->|Hjk].
      + by rewrite <- Hseg.
      + apply Hacc. lia. }
  destruct (bool_decide (filenum entry ≠ fromFileId st)) eqn:Hbound.
  2: { apply bool_decide_eq_false, dec_stable in Hbound.
       destruct (Hwrite fs (toFileId st) Hfrom Hw (or_introl Hbound))
         as (fs2 & b2 & n & HW & Hinv). rewrite HW, <- Hbound. eauto. }
  destruct (Rename _ _ fs) as [fs1 [err|]] eqn:Hren.
  { pose proof (Rename_error_kind _ _ _ _ _ Hren) as Hkind.
    apply Rename_error in Hren as ->. split_and!; [done | done | done | by right]. }
  assert (fs1 !! index from = Some cs) as Hfrom1.
  { replace fs1 with (Rename (fileName from (fromFileId st))
                        (fileName to (uint32 (toFileId st + 1))) fs).1 by (by rewrite Hren).
    rewrite Rename_untouched; [done | apply Hunt]. }
  assert (writer_inv (index to) c0 (encode_all written) (toIndex st) fs1) as Hw1.
  { apply (writer_inv_frame _ _ _ _ fs); [| done].
    replace fs1 with (Rename (fileName from (fromFileId st))
                        (fileName to (uint32 (toFileId st + 1))) fs).1 by (by rewrite Hren).
    rewrite Rename_untouched; [done | apply Hunt]. }
  destruct (bool_decide (fromFileId st ≠ uint32 (filenum entry + 1))) eqn:Hcheck.
  { split_and!; [done | done | done | by left]. }
  apply bool_decide_eq_false, dec_stable in Hcheck.
  destruct (Hwrite fs1 (uint32 (toFileId st + 1)) Hfrom1 Hw1 (or_intror Hcheck))
    as (fs2 & b2 & n & HW & Hinv). rewrite HW. eauto.
Qed.

(** The loop as a whole: it ends at the end of the source index with every
    record accepted and translated, or earlier with an error. *)
Lemma concat_loop_spec (fuel k : nat) (written : list indexEntry) (st : loopState)
    (fs fs' : fsys) (r : loopState + error) :
  loop_inv to from cs c0 k written st fs →
  concat_loop fuel to from st fs = Some (fs', r) →
  ∃ written',
    match r with
    | inl st' => loop_inv to from cs c0 (record_count cs) written' st' fs'
    | inr err =>
        (length written' < record_count cs)%nat ∧
        fs' !! index from = Some cs ∧
        (∃ b, writer_inv (index to) c0 (encode_all written') b fs') ∧
        (∀ j e, written' !! j = Some e → offset e = offset (record_at cs j)) ∧
        ((∃ b, err = ErrJump (filenum (record_at cs (length written'))) b) ∨
         rename_error err)
    end.
Proof.
  revert k written st fs. induction fuel as [|fuel IH]; intros k written st fs Hinv; [done |].
  simpl. pose proof (concat_body_spec _ _ _ _ Hinv) as Hbody.
  destruct (concat_body to from st fs) as [fs1 [st1| |err]].
  - destruct Hbody as [e Hinv1]. intros Hloop. by eapply IH.
  - destruct Hbody as [-> ->]. intros [= <- <-]. by exists written.
  - destruct Hbody as (Hlt & Hfrom & Hw & Hkind). intros [= <- <-].
    destruct Hinv as (_ & _ & _ & Hlen & _ & Hoff & _). exists written.
    rewrite Hlen. split_and!; try done; [by exists (toIndex st) |].
    destruct Hkind as [->|?]; [left; by eexists | by right].
Qed.

(** The loop ends within one turn more than there are records left. *)
Lemma concat_loop_terminates (fuel k : nat) (written : list indexEntry) (st : loopState)
    (fs : fsys) :
  loop_inv to from cs c0 k written st fs →
  (record_count cs - k < fuel)%nat →
  is_Some (concat_loop fuel to from st fs).
Proof.
  revert k written st fs. induction fuel as [|fuel IH]; intros k written st fs Hinv Hfuel; [lia |].
  simpl. pose proof (concat_body_spec _ _ _ _ Hinv) as Hbody.
  destruct (concat_body to from st fs) as [fs1 [st1| |err]]; [| done | done].
  destruct Hbody as [e Hinv1]. eapply IH; [done |].
  destruct Hinv1 as (_ & _ & Hk & _). apply record_count_lt in Hk. lia.
Qed.

End Loop.

(** ** concat on two tables *)

Section Table.
Context `{IndexCodec}.

(** Opening an index that does not exist creates it empty; from there on
    [concat] runs as on a store where the empty index was there. *)
Lemma concat_created (fuel : nat) (to from : freezerTable) (fs : fsys) :
  fs !! index to = None → is_dir (index to) fs = false →
  concat fuel to from fs = concat fuel to from (<[index to := []]> fs).
Proof.
  intros Hnone Hdir. unfold concat, openFreezerFileForAppend.
  by rewrite Hnone, Hdir, lookup_insert_eq.
Qed.

Lemma concat_not_opened (fuel : nat) (to from : freezerTable) (fs : fsys) :
  fs !! index to = None → is_dir (index to) fs = true →
  concat fuel to from fs = Some (fs, Some (ErrExist (index to))).
Proof.
  intros Hnone Hdir. unfold concat, openFreezerFileForAppend.
  by rewrite Hnone, Hdir.
Qed.

Section Opened.
Variables to from : freezerTable.
Variables cs c0 : list byte.
Variable fs : fsys.
Hypothesis Hwidth : fixed_width.
Hypothesis Hapart : index_files_apart to from.
Hypothesis Hsize : Z.of_nat (length cs) < 2 ^ 63.
Hypothesis Hfrom : fs !! index from = Some cs.
Hypothesis Hto : fs !! index to = Some c0.

Lemma concat_initial_inv :
  loop_inv to from cs c0 0 []
    {| toIndex := NewWriter {| Name := index to; pos := length c0 |};
       toFileId := uint32 (headId to + 1); fromFileId := tailId from; cur := 0 |} fs.
Proof.
  split_and!; simpl; try done; [lia | by apply NewWriter_inv | lia].
Qed.

(** With more turns than the source index has records, [concat] returns. *)
Lemma concat_terminates (fuel : nat) :
  (record_count cs < fuel)%nat → is_Some (concat fuel to from fs).
Proof.
  intros Hfuel. unfold concat, openFreezerFileForAppend. rewrite Hto.
  destruct (concat_loop_terminates to from cs c0 Hwidth Hapart Hsize fuel 0 [] _ fs
              concat_initial_inv) as [[fs1 r] Hloop]; [lia |].
  rewrite Hloop. destruct r as [st|err]; [| done].
  destruct (Flush (toIndex st) fs1) as [[fs2 b] [err|]]; [done |].
  by destruct (Rename _ _ fs2).
Qed.

(** What [concat] leaves behind: the source index as it was and, in the
    destination index, the translated records: all of them when the loop
    reached the end of the source, having accepted every record, else those
    that the writer had flushed when the loop returned. *)
Lemma concat_opened (fuel : nat) (fs' : fsys) (r : option error) :
  concat fuel to from fs = Some (fs', r) →
  fs' !! index from = Some cs ∧
  ∃ written,
    (∀ j e, written !! j = Some e → offset e = offset (record_at cs j)) ∧
    ((length written = record_count cs ∧
      fs' !! index to = Some (c0 ++ encode_all written) ∧
      (∀ j, (j < record_count cs)%nat →
            accepted (seg_before cs (tailId from) j) (filenum (record_at cs j))) ∧
      (r = None ∨ ∃ err, r = Some err ∧ rename_error err))
     ∨
     ((length written < record_count cs)%nat ∧
      fs' !! index to
      = Some (c0 ++ take (flushed_len (length (encode_all written))) (encode_all written)) ∧
      ∃ err, r = Some err ∧
        ((∃ b, err = ErrJump (filenum (record_at cs (length written))) b) ∨
         rename_error err))).
Proof.
  unfold concat, openFreezerFileForAppend. rewrite Hto.
  destruct (concat_loop _ _ _ _ fs) as [[fs1 res]|] eqn:Hloop; [| done].
  pose proof (concat_loop_spec to from cs c0 Hwidth Hapart Hsize _ _ _ _ _ _ _
                concat_initial_inv Hloop) as [written Hres].
  destruct Hapart as [Hne Hunt].
  destruct res as [st|err].
  - destruct Hres as (Hfrom1 & _ & _ & Hlen & Hw & Hoff & _ & Hacc).
    destruct (Flush_inv _ _ _ _ _ Hw) as (fs2 & b2 & -> & Hto2 & Hframe).
    intros Hren.
    assert (fs' = (Rename (fileName from (fromFileId st))
                     (fileName to (toFileId st)) fs2).1 ∧
            r = (Rename (fileName from (fromFileId st))
                   (fileName to (toFileId st)) fs2).2) as [-> Hr].
    { injection Hren as Hren. by rewrite Hren. }
    rewrite !Rename_untouched by apply Hunt.
    split; [by rewrite Hframe |].
    exists written. split; [done |]. left. split_and!; [done | done | done |].
    destruct (Rename _ _ fs2) as [fs3 [e|]] eqn:Hren3; simpl in Hr; subst r; [| by left].
    right. exists e. split; [done |]. by eapply Rename_error_kind.
  - destruct Hres as (Hlt & Hfrom1 & [b Hw] & Hoff & Hkind).
    intros [= <- <-]. split; [done |].
    exists written. split; [done |]. right. split_and!; [done | | by exists err].
    by apply (writer_inv_disk _ _ _ b).
Qed.

End Opened.
End Table.

(** ** Concat on two stores *)

Section Store.
Context `{IndexCodec}.

Lemma Concat_range_app (fuel : nat) (pre post : list (string * freezerTable))
    (from : freezer) (fs : fsys) :
  Concat_range fuel (pre ++ post) from fs
  = match Concat_range fuel pre from fs with
    | Some (fs1, None) => Concat_range fuel post from fs1
    | other => other
    end.
Proof.
  revert fs. induction pre as [|[name totab] pre IH]; intros fs; simpl; [done |].
  destruct (tables from !! name) as [fromtab|]; [| done].
  destruct (concat fuel totab fromtab fs) as [[fs1 [err|]]|]; try done.
Qed.

(** The range loop looks up in the source only the names it is given. *)
Lemma Concat_range_insert (fuel : nat) (order : list (string * freezerTable))
    (from : freezer) (name : string) (t : freezerTable) (fs : fsys) :
  name ∉ order.*1 →
  Concat_range fuel order {| tables := <[name := t]> (tables from) |} fs
  = Concat_range fuel order from fs.
Proof.
  revert fs. induction order as [|[n totab] order IH]; intros fs Hname; simpl; [done |].
  rewrite fmap_cons, not_elem_of_cons in Hname. destruct Hname as [Hne Hname].
  simpl in Hne. rewrite lookup_insert_ne by done.
  destruct (tables from !! n) as [fromtab|]; [| done].
  destruct (concat fuel totab fromtab fs) as [[fs1 [err|]]|]; try done.
  by apply IH.
Qed.

Lemma range_of_lookup (to : freezer) (order : list (string * freezerTable)) (name : string) :
  range_of to order → name ∈ order.*1 ↔ is_Some (tables to !! name).
Proof.
  intros Hperm. unfold range_of in Hperm. rewrite Hperm.
  rewrite list_elem_of_fmap. split.
  - intros ([n t] & -> & Hin). apply elem_of_map_to_list in Hin. by exists t.
  - intros [t Ht]. exists (name, t). split; [done |]. by apply elem_of_map_to_list.
Qed.

End Store.

(** ** More turns than needed change nothing *)

Section Fuel.
Context `{IndexCodec}.

Lemma concat_loop_fuel_mono (fuel fuel' : nat) (to from : freezerTable) (st : loopState)
    (fs : fsys) (res : fsys * (loopState + error)) :
  (fuel ≤ fuel')%nat →
  concat_loop fuel to from st fs = Some res → concat_loop fuel' to from st fs = Some res.
Proof.
  revert fuel' st fs. induction fuel as [|fuel IH]; intros fuel' st fs Hle; [done |].
  destruct fuel' as [|fuel']; [lia |]. simpl.
  destruct (concat_body to from st fs) as [fs1 [st1| |err]]; try done.
  apply IH. lia.
Qed.

Lemma concat_fuel_mono (fuel fuel' : nat) (to from : freezerTable) (fs : fsys)
    (res : fsys * option error) :
  (fuel ≤ fuel')%nat →
  concat fuel to from fs = Some res → concat fuel' to from fs = Some res.
Proof.
  intros Hle. unfold concat.
  destruct (openFreezerFileForAppend (index to) fs) as [fs0 [idx|err]]; [| done].
  destruct (concat_loop fuel to from _ fs0) as [res'|] eqn:Hloop; [| done].
  by rewrite (concat_loop_fuel_mono fuel fuel' _ _ _ _ _ Hle Hloop).
Qed.

End Fuel.

(** ** The claims about concat *)

Section ConcatClaims.
Context `{IndexCodec}.

Lemma uint32_succ_ne (f : Z) : 0 ≤ f < 2 ^ 32 → uint32 (f + 1) ≠ f.
Proof.
  intros Hf. unfold uint32.
  destruct (decide (f + 1 < 2 ^ 32)).
  - rewrite Z.mod_small; lia.
  - replace (f + 1) with (2 ^ 32) by lia. rewrite Z.mod_same; lia.
Qed.

Lemma uint32_succ_succ_ne (f : Z) : 0 ≤ f < 2 ^ 32 → f ≠ uint32 (uint32 (f + 1) + 1).
Proof.
  intros Hf. unfold uint32. rewrite Zplus_mod_idemp_l.
  destruct (decide (f + 1 + 1 < 2 ^ 32)).
  - rewrite Z.mod_small; lia.
  - replace (f + 1 + 1) with ((f + 2 - 2 ^ 32) + 1 * 2 ^ 32) by lia.
    rewrite Z.mod_add by lia. rewrite Z.mod_small; lia.
Qed.

(** C2. At a segment boundary of the source index where the new record's
    segment number is the next one, [fromFileId + 1], and the rename of the
    completed segment went through, the turn of the loop does not go on: it
    returns the jump error. The check compares [fromFileId] with the
    record's number plus one, not the record's number with [fromFileId]
    plus one. *)
Theorem concat_body_rejects_next_segment (to from : freezerTable) (st : loopState)
    (fs fs1 : fsys) (entry : indexEntry) :
  readIndex from (cur st) fs = inl entry →
  0 ≤ fromFileId st < 2 ^ 32 →
  filenum entry = uint32 (fromFileId st + 1) →
  Rename (fileName from (fromFileId st)) (fileName to (uint32 (toFileId st + 1))) fs
  = (fs1, None) →
  concat_body to from st fs = (fs1, Return (ErrJump (filenum entry) (fromFileId st))).
Proof.
  intros Hread Hrange Hnext Hren. unfold concat_body. rewrite Hread.
  rewrite bool_decide_eq_true_2.
  2: { rewrite Hnext. by apply uint32_succ_ne. }
  rewrite Hren.
  rewrite bool_decide_eq_true_2; [done |].
  rewrite Hnext. by apply uint32_succ_succ_ne.
Qed.

(** The boundary check as the code has it: past a boundary whose rename
    went through, the loop goes on exactly when [fromFileId] is the record's
    segment number plus one. *)
Lemma concat_body_boundary (to from : freezerTable) (st : loopState) (fs fs1 : fsys)
    (entry : indexEntry) :
  readIndex from (cur st) fs = inl entry →
  filenum entry ≠ fromFileId st →
  Rename (fileName from (fromFileId st)) (fileName to (uint32 (toFileId st + 1))) fs
  = (fs1, None) →
  (fromFileId st ≠ uint32 (filenum entry + 1) →
   concat_body to from st fs = (fs1, Return (ErrJump (filenum entry) (fromFileId st)))) ∧
  (fromFileId st = uint32 (filenum entry + 1) →
   ∀ a b, (concat_body to from st fs).2 ≠ Return (ErrJump a b)).
Proof.
  intros Hread Hne Hren. unfold concat_body. rewrite Hread.
  rewrite bool_decide_eq_true_2 by done. rewrite Hren. split; intros Hcheck.
  - by rewrite bool_decide_eq_true_2.
  - rewrite bool_decide_eq_false_2 by (by intros ?).
    intros a b. by destruct (Write _ _ _) as [[[fs2 b2] n] [err|]].
Qed.

(** C8. When the source index holds no whole record, the first read ends the
    loop with the file system untouched, and [concat] as a whole does what
    the one rename of the source's tail segment to the destination's name
    for segment [headId + 1] does, and returns what that rename returns. *)
Theorem concat_empty_source (fuel : nat) (to from : freezerTable) (fs : fsys)
    (cs c0 : list byte) :
  fs !! index from = Some cs →
  (length cs < indexEntrySize)%nat →
  fs !! index to = Some c0 →
  concat_body to from
    {| toIndex := NewWriter {| Name := index to; pos := length c0 |};
       toFileId := uint32 (headId to + 1); fromFileId := tailId from; cur := 0 |} fs
  = (fs, Break) ∧
  concat (S fuel) to from fs
  = Some (Rename (fileName from (tailId from)) (fileName to (uint32 (headId to + 1))) fs).
Proof.
  intros Hfrom Hlen Hto.
  assert (concat_body to from
    {| toIndex := NewWriter {| Name := index to; pos := length c0 |};
       toFileId := uint32 (headId to + 1); fromFileId := tailId from; cur := 0 |} fs
    = (fs, Break)) as Hbody.
  { unfold concat_body, readIndex, ReadAt. simpl.
    rewrite Hfrom. simpl. rewrite drop_0, length_take.
    rewrite bool_decide_eq_false_2 by lia. done. }
  split; [done |].
  unfold concat, openFreezerFileForAppend. rewrite Hto.
  cbn [concat_loop]. rewrite Hbody. done.
Qed.

(** C9. [concat] never changes the source index, whether it succeeds or
    fails, and what it appends to the destination index are the encodings of
    records whose offsets are those of the source records, in order: all of
    them when it succeeds. With more turns than the source index has records
    the loop comes to its end. The two tables keep their index files apart
    from each other and from their segment files. *)
Theorem concat_frame (fuel : nat) (to from : freezerTable) (fs : fsys) (cs c0 : list byte) :
  fixed_width →
  index_files_apart to from →
  Z.of_nat (length cs) < 2 ^ 63 →
  fs !! index from = Some cs →
  fs !! index to = Some c0 →
  ((record_count cs < fuel)%nat → is_Some (concat fuel to from fs)) ∧
  ∀ fs' r, concat fuel to from fs = Some (fs', r) →
    fs' !! index from = Some cs ∧
    ∃ written n,
      (∀ j e, written !! j = Some e → offset e = offset (record_at cs j)) ∧
      fs' !! index to = Some (c0 ++ take n (encode_all written)) ∧
      (r = None → length written = record_count cs ∧
                  fs' !! index to = Some (c0 ++ encode_all written)).
Proof.
  intros Hwidth Hapart Hsize Hfrom Hto. split.
  { by apply (concat_terminates to from cs c0). }
  intros fs' r Hconcat.
  destruct (concat_opened to from cs c0 fs Hwidth Hapart Hsize Hfrom Hto _ _ _ Hconcat)
    as (Hfrom' & written & Hoff & Hcases).
  split; [done |]. exists written.
  destruct Hcases as [(Hlen & Hdisk & _ & _)|(Hlt & Hdisk & err & -> & _)].
  - exists (length (encode_all written)). rewrite firstn_all. done.
  - eexists. split_and!; [done | done | done].
Qed.

(** C3, as the code has it. A source index in which some record's segment
    number is more than one above the number before it is never merged:
    [concat] returns an error, the jump error unless a rename failed first,
    and returns it once it is given more turns than the index has records.
    The destination index on disk then holds what it held before, followed
    by those bytes of the records translated so far that the buffered writer
    had passed on: the buffer loads that filled up, none of them while the
    records fit the buffer. The error path returns without a flush. *)
Theorem concat_gap_flushed_prefix (fuel : nat) (to from : freezerTable) (fs : fsys)
    (cs c0 : list byte) (j : nat) :
  fixed_width →
  index_files_apart to from →
  Z.of_nat (length cs) < 2 ^ 63 →
  fs !! index from = Some cs →
  fs !! index to = Some c0 →
  (j < record_count cs)%nat →
  0 ≤ seg_before cs (tailId from) j →
  seg_before cs (tailId from) j + 1 < filenum (record_at cs j) < 2 ^ 32 - 1 →
  ((record_count cs < fuel)%nat → is_Some (concat fuel to from fs)) ∧
  ∀ fs' r, concat fuel to from fs = Some (fs', r) →
    ∃ err written,
      r = Some err ∧
      ((∃ b, err = ErrJump (filenum (record_at cs (length written))) b) ∨
       rename_error err) ∧
      (length written < record_count cs)%nat ∧
      (∀ i e, written !! i = Some e → offset e = offset (record_at cs i)) ∧
      fs' !! index to
      = Some (c0 ++ take (flushed_len (length written * indexEntrySize))
                      (encode_all written)) ∧
      ((length written * indexEntrySize ≤ defaultBufSize)%nat → fs' !! index to = Some c0).
Proof.
  intros Hwidth Hapart Hsize Hfrom Hto Hj Hprev Hjump. split.
  { by apply (concat_terminates to from cs c0). }
  intros fs' r Hconcat.
  destruct (concat_opened to from cs c0 fs Hwidth Hapart Hsize Hfrom Hto _ _ _ Hconcat)
    as (_ & written & Hoff & Hcases).
  destruct Hcases as [(_ & _ & Hacc & _)|(Hlt & Hdisk & err & -> & Hkind)].
  { destruct (Hacc j Hj) as [Heq|Heq]; [lia |].
    unfold uint32 in Heq. rewrite Z.mod_small in Heq; lia. }
  assert (length (encode_all written) = (length written * indexEntrySize)%nat) as Hlen.
  { destruct Hwidth as [_ Henc]. clear -Henc. unfold encode_all.
    induction written as [|e l IH]; simpl; [done |].
    rewrite length_app, Henc, IH. done. }
  rewrite Hlen in Hdisk.
  exists err, written. split_and!; [done | done | done | done | done |].
  intros Hsmall. rewrite Hdisk. unfold flushed_len.
  rewrite Nat.div_small.
  - rewrite Nat.mul_0_r, take_0, app_nil_r. done.
  - pose proof defaultBufSize_pos. lia.
Qed.

End ConcatClaims.

(** ** The claims about Concat *)

Lemma append_empty_r (a : string) : a +:+ "" = a.
Proof. induction a as [|x a IH]; [done |]. by rewrite append_cons, IH. Qed.

Lemma unrelated_ne (a b : string) : unrelated a b → a ≠ b.
Proof.
  intros [Hab _] ->. apply nested_false in Hab.
  rewrite <- (append_empty_r (b +:+ "/")) in Hab at 2.
  by rewrite strip_prefix_app in Hab.
Qed.

Lemma unrelated_not_beneath (a k : string) : unrelated k a → subpath a k = None.
Proof.
  intros [_ Hak]. apply nested_false in Hak.
  destruct (subpath a k) as [r|] eqn:Hsub; [| done].
  apply subpath_Some in Hsub. subst k.
  rewrite <- !append_assoc, append_assoc, strip_prefix_app in Hak. done.
Qed.

Lemma unrelated_join_ne (a k rel : string) : unrelated k a → k +:+ "/" +:+ rel ≠ a.
Proof.
  intros [Hka _] <-. apply nested_false in Hka.
  rewrite <- !append_assoc, append_assoc, strip_prefix_app in Hka. done.
Qed.

(** Renaming [a] to [b] leaves alone a directory that is unrelated to
    both, and what lies beneath it. *)
Lemma unrelated_untouched (a b k : string) :
  unrelated k a → unrelated k b →
  untouched a b k ∧ ∀ rel, untouched a b (k +:+ "/" +:+ rel).
Proof.
  intros Ha Hb. split.
  - split_and!.
    + by apply unrelated_ne.
    + by apply unrelated_ne.
    + by apply unrelated_not_beneath.
    + by apply unrelated_not_beneath.
  - intros rel. split_and!.
    + by apply unrelated_join_ne.
    + by apply unrelated_join_ne.
    + by apply unrelated_subpath, unrelated_sym.
    + by apply unrelated_subpath, unrelated_sym.
Qed.

Section StoreClaims.
Context `{IndexCodec}.

(** C6. Once every table has been concatenated, [Concat] renames the root
    of the source store to the same name with ".old" appended, then the root
    of the destination store to the name the source had, looks at the result
    of neither rename, and returns nil. When both renames went through, the
    destination root being a directory unrelated to the source root and to
    its ".old" name, every file of the destination store is found under the
    name of the source root. The roots are the paths of the two "headers"
    tables. *)
Theorem Concat_promotes_directories (fuel : nat) (order : list (string * freezerTable))
    (to from : freezer) (fs fs1 : fsys) (totab fromtab : freezerTable) :
  Concat_range fuel order from fs = Some (fs1, None) →
  tables to !! "headers" = Some totab →
  tables from !! "headers" = Some fromtab →
  let toPath := path totab in
  let fromPath := path fromtab in
  let aside := Rename fromPath (fromPath +:+ ".old") fs1 in
  let promoted := Rename toPath fromPath aside.1 in
  Concat fuel order to from fs = Some (promoted.1, Returned None) ∧
  (aside.2 = None → promoted.2 = None →
   fs1 !! toPath = None → unrelated toPath fromPath → unrelated toPath (fromPath +:+ ".old") →
   ∀ rel, promoted.1 !! (fromPath +:+ "/" +:+ rel) = fs1 !! (toPath +:+ "/" +:+ rel)).
Proof.
  intros Hrange Hto Hfrom toPath fromPath aside promoted. split.
  { unfold Concat. by rewrite Hrange, Hto, Hfrom. }
  intros Haside Hpromoted Hdir Hun Hun' rel.
  destruct (unrelated_untouched fromPath (fromPath +:+ ".old") toPath Hun Hun')
    as [Hroot Hbeneath].
  assert (aside.1 !! toPath = None) as Hdir'.
  { unfold aside. by rewrite Rename_untouched. }
  rewrite (Rename_directory toPath fromPath rel aside.1 promoted.1).
  - unfold aside. by rewrite Rename_untouched.
  - done.
  - by apply unrelated_ne.
  - unfold promoted in *. destruct (Rename toPath fromPath aside.1) as [fs2 r2].
    simpl in *. by subst r2.
Qed.

(** C7. When the range loop comes to a table of the destination that the
    source lacks, [Concat] returns the error that names this table, and
    returns it with the file system as the tables merged before left it:
    nothing after them is merged and nothing of them is undone. Whatever the
    tables before it do, [Concat] does not return nil and does not get to
    the renames of the store roots. *)
Theorem Concat_missing_table (fuel : nat) (pre post : list (string * freezerTable))
    (name : string) (totab : freezerTable) (to from : freezer) (fs : fsys) :
  range_of to (pre ++ (name, totab) :: post) →
  tables from !! name = None →
  (∀ fs1, Concat_range fuel pre from fs = Some (fs1, None) →
     Concat fuel (pre ++ (name, totab) :: post) to from fs
     = Some (fs1, Returned (Some (ErrTableMissing name)))) ∧
  (∀ fs' out, Concat fuel (pre ++ (name, totab) :: post) to from fs = Some (fs', out) →
     ∃ fs1 e, out = Returned (Some e) ∧
       Concat_range fuel (pre ++ (name, totab) :: post) from fs = Some (fs1, Some e) ∧
       fs' = fs1).
Proof.
  intros _ Hmissing.
  assert (∀ fs1, Concat_range fuel ((name, totab) :: post) from fs1
                 = Some (fs1, Some (ErrTableMissing name))) as Hhere.
  { intros fs1. simpl. by rewrite Hmissing. }
  split.
  - intros fs1 Hpre. unfold Concat. by rewrite Concat_range_app, Hpre, Hhere.
  - intros fs' out. unfold Concat. rewrite Concat_range_app.
    destruct (Concat_range fuel pre from fs) as [[fs1 [e|]]|]; [| | done].
    + intros [= <- <-]. by exists fs1, e.
    + rewrite Hhere. intros [= <- <-]. by eexists _, _.
Qed.

(** C10. A table that the source store has and the destination store lacks
    plays no part in [Concat]: with or without it in the source, [Concat]
    returns the same and leaves the same file system. *)
Theorem Concat_ignores_source_only_table (fuel : nat) (order : list (string * freezerTable))
    (to from : freezer) (name : string) (t : freezerTable) (fs : fsys) :
  range_of to order →
  tables to !! name = None →
  Concat fuel order to {| tables := <[name := t]> (tables from) |} fs
  = Concat fuel order to from fs.
Proof.
  intros Horder Hname.
  assert (name ∉ order.*1) as Hnotin.
  { rewrite (range_of_lookup to order name Horder), Hname. by intros [? ?]. }
  unfold Concat. rewrite Concat_range_insert by done.
  destruct (Concat_range fuel order from fs) as [[fs1 [e|]]|]; [done | | done].
  destruct (tables to !! "headers") as [totab|] eqn:Hheaders; [| done].
  simpl. rewrite lookup_insert_ne; [done |]. by intros ->; congruence.
Qed.

End StoreClaims.

(** ** The claims on concrete stores *)

(** A result is known from its second component and its own first one. *)
Lemma result_eq {A B : Type} (x : A * B) (b : B) : x.2 = b → x = (x.1, b).
Proof. destruct x as [a b']. simpl. by intros ->. Qed.

Lemma some_result_eq {A B : Type} (o : option (A * B)) (d : A * B) (b : B) :
  snd <$> o = Some b → o = Some ((default d o).1, b).
Proof. destruct o as [[a b']|]; simpl; [| done]. by intros [= ->]. Qed.

Lemma length_be_encode (n : nat) (z : Z) : length (be_encode n z) = n.
Proof.
  revert z. induction n as [|n IH]; intros z; simpl; [done |].
  rewrite length_app, IH. simpl. lia.
Qed.

Lemma big_endian_fixed_width : @fixed_width big_endian_codec.
Proof.
  split; [unfold defaultBufSize; simpl; lia |].
  intros e. unfold append, big_endian_codec, indexEntrySize.
  rewrite !length_app, !length_be_encode. done.
Qed.

Lemma string_length_append (a b : string) :
  String.length (a +:+ b) = (String.length a + String.length b)%nat.
Proof.
  induction a as [|x a IH]; [done |].
  rewrite append_cons. simpl. by rewrite IH.
Qed.

(** A path that no extension of [old] or of [new] equals is untouched by the
    rename of [old] to [new]. *)
Lemma untouched_no_extension (old new k : string) :
  (∀ r, k ≠ old +:+ r) → (∀ r, k ≠ new +:+ r) → untouched old new k.
Proof.
  intros Hold Hnew. split_and!.
  - specialize (Hold ""). by rewrite append_empty_r in Hold.
  - specialize (Hnew ""). by rewrite append_empty_r in Hnew.
  - destruct (subpath old k) as [rel|] eqn:Hsub; [| done].
    apply subpath_Some in Hsub. by destruct (Hold ("/" +:+ rel)).
  - destruct (subpath new k) as [rel|] eqn:Hsub; [| done].
    apply subpath_Some in Hsub. by destruct (Hnew ("/" +:+ rel)).
Qed.

Lemma headers_apart : index_files_apart to_headers from_headers.
Proof.
  split; [done |]. intros a b. simpl. split.
  - apply untouched_no_extension; intros r Heq.
    + apply (f_equal String.length) in Heq.
      rewrite !string_length_append in Heq. simpl in Heq. lia.
    + rewrite !append_cons in Heq. discriminate.
  - apply untouched_no_extension; intros r Heq.
    + rewrite !append_cons in Heq. discriminate.
    + apply (f_equal String.length) in Heq.
      rewrite !string_length_append in Heq. simpl in Heq. lia.
Qed.

Lemma copyFrom_content_witness :
  let copied := copyFrom NoFault temp_names "to/headers.5.cdat" "to/headers.5.cdat" 1
                  (Some before_header) fs_single in
  ((fs_single !! "to/headers.5.cdat" = Some (bytes_of "abc")) ∧
   ("to/headers.5.cdat" ∉ temp_names) ∧
   writes_prefix (Some before_header) (bytes_of "HDR") ∧
   copied = (copied.1, None) ∧
   copied.1 !! "to/headers.5.cdat" = Some (bytes_of "HDR" ++ drop (Z.to_nat 1) (bytes_of "abc"))).
Proof.
  intros copied.
  assert (fs_single !! "to/headers.5.cdat" = Some (bytes_of "abc")) as Hsrc
    by (vm_compute; reflexivity).
  assert ("to/headers.5.cdat" ∉ temp_names) as Hnames
    by (apply (bool_decide_unpack _); vm_compute; exact I).
  assert (writes_prefix (Some before_header) (bytes_of "HDR")) as Hpre
    by (vm_compute; reflexivity).
  assert (copied = (copied.1, None)) as Hcopy
    by (apply result_eq; vm_compute; reflexivity).
  refine (conj Hsrc (conj Hnames (conj Hpre (conj Hcopy _)))).
  exact (copyFrom_content NoFault temp_names "to/headers.5.cdat" "to/headers.5.cdat" 1
           (Some before_header) fs_single copied.1 _ _ Hsrc Hnames Hpre Hcopy).
Defined.

Lemma copyFrom_atomic_witness :
  let copied := copyFrom (CopyFault 1) temp_names "from/headers.2.cdat" "to/headers.5.cdat"
                  0 None fs_single in
  (copied = (copied.1, Some ErrIO) ∧
   (∀ fs0 fname, TempFile temp_names fs_single = (fs0, inl fname) → copied.1 !! fname = None) ∧
   copied.1 = fs_single ∧
   copied.1 !! "to/headers.5.cdat" = fs_single !! "to/headers.5.cdat").
Proof.
  intros copied.
  assert (copied = (copied.1, Some ErrIO)) as Hcopy
    by (apply result_eq; vm_compute; reflexivity).
  refine (conj Hcopy _).
  exact (copyFrom_atomic (CopyFault 1) temp_names "from/headers.2.cdat" "to/headers.5.cdat"
           0 None fs_single copied.1 (Some ErrIO) Hcopy).
Defined.

(** C1. The destination has the segments up to 5, the source four items in
    the segments 2, 3 and 4. [concat] does not merge them: at the first
    boundary of the source index, from segment 2 to segment 3, it returns the
    jump error. By then it has renamed the source's segment 2 to the
    destination's segment 7, there is no segment 6, and the destination
    index on disk is as it was. *)
Theorem concat_three_segments_fails (fuel : nat) :
  ∃ fs',
    @concat big_endian_codec (3 + fuel) to_headers from_headers fs_segments
    = Some (fs', Some (ErrJump 3 2)) ∧
    fs' !! "to/headers.cidx" = Some (index_of [(5, 0); (5, 3)]) ∧
    fs' !! "to/headers.6.cdat" = None ∧
    fs' !! "to/headers.7.cdat" = Some (bytes_of "xy") ∧
    fs' !! "to/headers.8.cdat" = None ∧
    fs' !! "from/headers.2.cdat" = None ∧
    fs' !! "from/headers.3.cdat" = Some (bytes_of "zw") ∧
    fs' !! "from/headers.4.cdat" = Some (bytes_of "q").
Proof.
  exists (default (∅, None)
            (@concat big_endian_codec 3 to_headers from_headers fs_segments)).1.
  split.
  - apply (@concat_fuel_mono big_endian_codec 3); [lia |].
    apply some_result_eq. vm_compute. reflexivity.
  - split_and!; vm_compute; reflexivity.
Qed.

Lemma concat_body_rejects_next_segment_witness :
  let st := {| toIndex := NewWriter {| Name := "to/headers.cidx"; pos := 16 |};
               toFileId := 6; fromFileId := 2; cur := 2 |} in
  let renamed := Rename (fileName from_headers (fromFileId st))
                   (fileName to_headers (uint32 (toFileId st + 1))) fs_segments in
  (@readIndex big_endian_codec from_headers (cur st) fs_segments
   = inl {| filenum := 3; offset := 1 |} ∧
   0 ≤ fromFileId st < 2 ^ 32 ∧
   3 = uint32 (fromFileId st + 1) ∧
   renamed = (renamed.1, None) ∧
   @concat_body big_endian_codec to_headers from_headers st fs_segments
   = (renamed.1, Return (ErrJump 3 2))).
Proof.
  intros st renamed.
  assert (@readIndex big_endian_codec from_headers (cur st) fs_segments
          = inl {| filenum := 3; offset := 1 |}) as Hread by (vm_compute; reflexivity).
  assert (0 ≤ fromFileId st < 2 ^ 32) as Hrange by (simpl; lia).
  assert (filenum {| filenum := 3; offset := 1 |} = uint32 (fromFileId st + 1)) as Hnext
    by (vm_compute; reflexivity).
  assert (renamed = (renamed.1, None)) as Hren
    by (apply result_eq; vm_compute; reflexivity).
  refine (conj Hread (conj Hrange (conj Hnext (conj Hren _)))).
  exact (@concat_body_rejects_next_segment big_endian_codec to_headers from_headers st
           fs_segments renamed.1 _ Hread Hrange Hnext Hren).
Defined.

(** C3, as the claim states it, fails. The source index jumps from segment 2
    to segment 4 after two records. The two turns before the jump write the
    translated records to the buffered writer, where they stay; the third
    turn returns the jump error, and the destination index on disk is what
    it was, without the two records. *)
Lemma concat_gap_counterexample :
  let index := {| Name := "to/headers.cidx"; pos := 16 |} in
  let st0 := {| toIndex := NewWriter index; toFileId := 6; fromFileId := 2; cur := 0 |} in
  let st1 := {| toIndex := {| wr := index; buf := index_of [(6, 0)]; werr := None |};
                toFileId := 6; fromFileId := 2; cur := 1 |} in
  let st2 := {| toIndex := {| wr := index; buf := index_of [(6, 0); (6, 2)]; werr := None |};
                toFileId := 6; fromFileId := 2; cur := 2 |} in
  ((@concat_body big_endian_codec to_headers from_headers st0 fs_gap).2 = Continue st1 ∧
   (@concat_body big_endian_codec to_headers from_headers st1 fs_gap).2 = Continue st2 ∧
   (@concat_body big_endian_codec to_headers from_headers st2 fs_gap).2
   = Return (ErrJump 4 2) ∧
   ∃ fs',
     @concat big_endian_codec 3 to_headers from_headers fs_gap
     = Some (fs', Some (ErrJump 4 2)) ∧
     fs' !! "to/headers.cidx" = Some (index_of [(5, 0); (5, 3)]) ∧
     fs' !! "to/headers.cidx"
     ≠ Some (index_of [(5, 0); (5, 3)] ++ index_of [(6, 0); (6, 2)])).
Proof.
  intros index st0 st1 st2.
  split; [vm_compute; reflexivity |].
  split; [vm_compute; reflexivity |].
  split; [vm_compute; reflexivity |].
  exists (default (∅, None)
            (@concat big_endian_codec 3 to_headers from_headers fs_gap)).1.
  split; [apply some_result_eq; vm_compute; reflexivity |].
  split; [vm_compute; reflexivity |].
  vm_compute. discriminate.
Qed.

Lemma concat_gap_flushed_prefix_witness :
  let cs := index_of [(2, 0); (2, 2); (4, 1)] in
  let c0 := index_of [(5, 0); (5, 3)] in
  (@fixed_width big_endian_codec ∧
   index_files_apart to_headers from_headers ∧
   Z.of_nat (length cs) < 2 ^ 63 ∧
   fs_gap !! index from_headers = Some cs ∧
   fs_gap !! index to_headers = Some c0 ∧
   (2 < @record_count big_endian_codec cs)%nat ∧
   0 ≤ @seg_before big_endian_codec cs (tailId from_headers) 2 ∧
   @seg_before big_endian_codec cs (tailId from_headers) 2 + 1
   < filenum (@record_at big_endian_codec cs 2) < 2 ^ 32 - 1 ∧
   ((@record_count big_endian_codec cs < 4)%nat
    → is_Some (@concat big_endian_codec 4 to_headers from_headers fs_gap)) ∧
   ∀ fs' r, @concat big_endian_codec 4 to_headers from_headers fs_gap = Some (fs', r) →
     ∃ err written,
       r = Some err ∧
       ((∃ b, err = ErrJump (filenum (@record_at big_endian_codec cs (length written))) b) ∨
        rename_error err) ∧
       (length written < @record_count big_endian_codec cs)%nat ∧
       (∀ i e, written !! i = Some e
               → offset e = offset (@record_at big_endian_codec cs i)) ∧
       fs' !! index to_headers
       = Some (c0 ++ take (flushed_len (length written * @indexEntrySize big_endian_codec))
                       (@encode_all big_endian_codec written)) ∧
       ((length written * @indexEntrySize big_endian_codec ≤ defaultBufSize)%nat
        → fs' !! index to_headers = Some c0)).
Proof.
  intros cs c0.
  assert (Z.of_nat (length cs) < 2 ^ 63) as Hsize by (vm_compute; reflexivity).
  assert (fs_gap !! index from_headers = Some cs) as Hfrom by (vm_compute; reflexivity).
  assert (fs_gap !! index to_headers = Some c0) as Hto by (vm_compute; reflexivity).
  assert (2 < @record_count big_endian_codec cs)%nat as Hj by (vm_compute; lia).
  assert (0 ≤ @seg_before big_endian_codec cs (tailId from_headers) 2) as Hprev
    by (vm_compute; discriminate).
  assert (@seg_before big_endian_codec cs (tailId from_headers) 2 + 1
          < filenum (@record_at big_endian_codec cs 2) < 2 ^ 32 - 1) as Hjump
    by (split; vm_compute; reflexivity).
  refine (conj big_endian_fixed_width (conj headers_apart
            (conj Hsize (conj Hfrom (conj Hto (conj Hj (conj Hprev (conj Hjump _)))))))).
  exact (@concat_gap_flushed_prefix big_endian_codec 4 to_headers from_headers fs_gap cs c0 2
           big_endian_fixed_width headers_apart Hsize Hfrom Hto Hj Hprev Hjump).
Defined.

Lemma concat_empty_source_witness :
  (fs_empty !! index from_headers = Some []) ∧
  (length ([] : list byte) < @indexEntrySize big_endian_codec)%nat ∧
  (fs_empty !! index to_headers = Some (index_of [(5, 0); (5, 3)])) ∧
  @concat_body big_endian_codec to_headers from_headers
    {| toIndex := NewWriter {| Name := index to_headers;
                               pos := length (index_of [(5, 0); (5, 3)]) |};
       toFileId := uint32 (headId to_headers + 1); fromFileId := tailId from_headers;
       cur := 0 |} fs_empty
  = (fs_empty, Break) ∧
  @concat big_endian_codec 1 to_headers from_headers fs_empty
  = Some (Rename (fileName from_headers (tailId from_headers))
            (fileName to_headers (uint32 (headId to_headers + 1))) fs_empty).
Proof.
  assert (fs_empty !! index from_headers = Some []) as Hfrom by (vm_compute; reflexivity).
  assert (length ([] : list byte) < @indexEntrySize big_endian_codec)%nat as Hlen
    by (simpl; lia).
  assert (fs_empty !! index to_headers = Some (index_of [(5, 0); (5, 3)])) as Hto
    by (vm_compute; reflexivity).
  refine (conj Hfrom (conj Hlen (conj Hto _))).
  exact (@concat_empty_source big_endian_codec 0 _ _ _ _ _ Hfrom Hlen Hto).
Defined.

Lemma concat_frame_witness :
  let cs := index_of [(2, 0); (2, 2)] in
  let c0 := index_of [(5, 0); (5, 3)] in
  (@fixed_width big_endian_codec ∧
   index_files_apart to_headers from_headers ∧
   Z.of_nat (length cs) < 2 ^ 63 ∧
   fs_single !! index from_headers = Some cs ∧
   fs_single !! index to_headers = Some c0 ∧
   ((@record_count big_endian_codec cs < 3)%nat
    → is_Some (@concat big_endian_codec 3 to_headers from_headers fs_single)) ∧
   ∀ fs' r, @concat big_endian_codec 3 to_headers from_headers fs_single = Some (fs', r) →
     fs' !! index from_headers = Some cs ∧
     ∃ written n,
       (∀ j e, written !! j = Some e
               → offset e = offset (@record_at big_endian_codec cs j)) ∧
       fs' !! index to_headers = Some (c0 ++ take n (@encode_all big_endian_codec written)) ∧
       (r = None → length written = @record_count big_endian_codec cs ∧
                   fs' !! index to_headers
                   = Some (c0 ++ @encode_all big_endian_codec written))).
Proof.
  intros cs c0.
  assert (Z.of_nat (length cs) < 2 ^ 63) as Hsize by (vm_compute; reflexivity).
  assert (fs_single !! index from_headers = Some cs) as Hfrom by (vm_compute; reflexivity).
  assert (fs_single !! index to_headers = Some c0) as Hto by (vm_compute; reflexivity).
  refine (conj big_endian_fixed_width (conj headers_apart
            (conj Hsize (conj Hfrom (conj Hto _))))).
  exact (@concat_frame big_endian_codec 3 _ _ _ _ _
           big_endian_fixed_width headers_apart Hsize Hfrom Hto).
Defined.

Lemma Concat_promotes_directories_witness :
  let order := [("headers", to_headers)] in
  let fs1 := (default (∅, None)
                (@Concat_range big_endian_codec 3 order from_store fs_single)).1 in
  let aside := Rename (path from_headers) (path from_headers +:+ ".old") fs1 in
  let promoted := Rename (path to_headers) (path from_headers) aside.1 in
  (@Concat_range big_endian_codec 3 order from_store fs_single = Some (fs1, None) ∧
   tables to_store !! "headers" = Some to_headers ∧
   tables from_store !! "headers" = Some from_headers ∧
   @Concat big_endian_codec 3 order to_store from_store fs_single
   = Some (promoted.1, Returned None) ∧
   (aside.2 = None → promoted.2 = None →
    fs1 !! path to_headers = None →
    unrelated (path to_headers) (path from_headers) →
    unrelated (path to_headers) (path from_headers +:+ ".old") →
    ∀ rel, promoted.1 !! (path from_headers +:+ "/" +:+ rel)
           = fs1 !! (path to_headers +:+ "/" +:+ rel))).
Proof.
  intros order fs1 aside promoted.
  assert (@Concat_range big_endian_codec 3 order from_store fs_single = Some (fs1, None))
    as Hrange by (apply some_result_eq; vm_compute; reflexivity).
  assert (tables to_store !! "headers" = Some to_headers) as Hto by reflexivity.
  assert (tables from_store !! "headers" = Some from_headers) as Hfrom by reflexivity.
  refine (conj Hrange (conj Hto (conj Hfrom _))).
  exact (@Concat_promotes_directories big_endian_codec 3 order to_store from_store
           fs_single fs1 to_headers from_headers Hrange Hto Hfrom).
Defined.

Lemma Concat_missing_table_witness :
  let pre := [("headers", to_headers)] in
  let fs1 := (default (∅, None)
                (@Concat_range big_endian_codec 3 pre from_store fs_single)).1 in
  (range_of to_store_foo (pre ++ [("foo", to_foo)]) ∧
   tables from_store !! "foo" = None ∧
   @Concat_range big_endian_codec 3 pre from_store fs_single = Some (fs1, None) ∧
   @Concat big_endian_codec 3 (pre ++ [("foo", to_foo)]) to_store_foo from_store fs_single
   = Some (fs1, Returned (Some (ErrTableMissing "foo")))).
Proof.
  intros pre fs1.
  assert (range_of to_store_foo (pre ++ [("foo", to_foo)])) as Horder.
  { unfold range_of, to_store_foo, pre. simpl.
    rewrite map_to_list_insert by done. rewrite map_to_list_singleton.
    apply Permutation_swap. }
  assert (tables from_store !! "foo" = None) as Hmissing by reflexivity.
  assert (@Concat_range big_endian_codec 3 pre from_store fs_single = Some (fs1, None))
    as Hpre by (apply some_result_eq; vm_compute; reflexivity).
  refine (conj Horder (conj Hmissing (conj Hpre _))).
  exact (proj1 (@Concat_missing_table big_endian_codec 3 pre [] "foo" to_foo
                  to_store_foo from_store fs_single Horder Hmissing) fs1 Hpre).
Defined.

Lemma Concat_ignores_source_only_table_witness :
  let order := [("headers", to_headers)] in
  let with_bodies := {| tables := <["bodies" := from_bodies]> (tables from_store) |} in
  (range_of to_store order ∧
   tables to_store !! "bodies" = None ∧
   @Concat big_endian_codec 3 order to_store with_bodies fs_single
   = @Concat big_endian_codec 3 order to_store from_store fs_single ∧
   snd <$> @Concat big_endian_codec 3 order to_store with_bodies fs_single
   = Some (Returned None)).
Proof.
  intros order with_bodies.
  assert (range_of to_store order) as Horder.
  { unfold range_of, to_store, order. simpl. by rewrite map_to_list_singleton. }
  assert (tables to_store !! "bodies" = None) as Hname by reflexivity.
  refine (conj Horder (conj Hname (conj _ _))).
  - exact (@Concat_ignores_source_only_table big_endian_codec 3 order to_store from_store
             "bodies" from_bodies fs_single Horder Hname).
  - vm_compute. reflexivity.
Defined.

(** [Concat] returns nil although both renames of the store roots fail: the
    name for the old source root is taken, so the source root stays, so the
    destination root cannot take its name. The merged store is still under
    the destination root. *)
Example Concat_returns_nil_unpromoted :
  let order := [("headers", to_headers)] in
  let fs1 := (default (∅, None)
                (@Concat_range big_endian_codec 3 order from_store fs_stale)).1 in
  let done := @Concat big_endian_codec 3 order to_store from_store fs_stale in
  ((Rename "from" "from.old" fs1).2 = Some (ErrExist "from.old") ∧
   (Rename "to" "from" fs1).2 = Some (ErrExist "from") ∧
   snd <$> done = Some (Returned None) ∧
   (done ≫= λ res, res.1 !! "to/headers.6.cdat") = Some (bytes_of "xy") ∧
   (done ≫= λ res, res.1 !! "from/headers.6.cdat") = None).
Proof.
  intros order fs1 done. split_and!; vm_compute; reflexivity.
Qed.

(** A failing callback: [copyFrom] returns its error, the destination is as
    it was and the temporary file is gone. *)
Example copyFrom_callback_fails :
  let copied := copyFrom NoFault temp_names "from/headers.2.cdat" "to/headers.5.cdat" 0
                  (Some before_failing) fs_single in
  (copied.2 = Some (ErrCallback 1) ∧
   copied.1 !! "to/headers.5.cdat" = Some (bytes_of "abc") ∧
   copied.1 !! "to/183259017" = None).
Proof.
  intros copied. split_and!; vm_compute; reflexivity.
Qed.

(** * Further properties of the code *)

(** ** Opening and resizing table files *)

(** The directories of a file system are those of its path names. *)
Lemma is_dir_same_names (d : string) (fs fs' : fsys) :
  (∀ p, is_Some (fs' !! p) ↔ is_Some (fs !! p)) → is_dir d fs' = is_dir d fs.
Proof.
  intros Hdom. unfold is_dir. apply bool_decide_ext.
  rewrite !map_Exists_lookup. split; intros (p & c & Hp & Hsub).
  - destruct (proj1 (Hdom p) (mk_is_Some _ _ Hp)) as [c' Hc']. eauto.
  - destruct (proj2 (Hdom p) (mk_is_Some _ _ Hp)) as [c' Hc']. eauto.
Qed.

Lemma is_dir_insert (d k : string) (v : list byte) (fs : fsys) :
  is_dir d (<[k := v]> fs) = is_dir d fs || bool_decide (is_Some (subpath d k)).
Proof.
  apply eq_true_iff_eq. rewrite orb_true_iff. unfold is_dir.
  rewrite !bool_decide_eq_true, !map_Exists_lookup. split.
  - intros (p & c & Hp & Hsub). destruct (decide (p = k)) as [->|Hne]; [by right |].
    rewrite lookup_insert_ne in Hp by done. left. eauto.
  - intros [(p & c & Hp & Hsub)|Hsub].
    + destruct (decide (p = k)) as [->|Hne].
      * exists k, v. by rewrite lookup_insert_eq.
      * exists p, c. by rewrite lookup_insert_ne.
    + exists k, v. by rewrite lookup_insert_eq.
Qed.

(** X1. A file opened with [openFreezerFileForAppend] is written behind what
    it holds: the first write through the handle leaves the old content
    followed by the bytes written, the file being created empty when it was
    not there. No other file changes. The path is not a directory. *)
Theorem openFreezerFileForAppend_appends (filename : string) (p : list byte) (fs : fsys) :
  (fs !! filename = None → is_dir filename fs = false) →
  ∃ fs1 f fs2 f',
    openFreezerFileForAppend filename fs = (fs1, inl f) ∧
    File_Write f p fs1 = (fs2, f', None) ∧
    fs2 !! filename = Some (default [] (fs !! filename) ++ p) ∧
    pos f' = length (default [] (fs !! filename) ++ p) ∧
    ∀ k, k ≠ filename → fs2 !! k = fs !! k.
Proof.
  intros Hdir. unfold openFreezerFileForAppend.
  destruct (fs !! filename) as [c|] eqn:Hc.
  - eexists _, _, _, _. split; [reflexivity |].
    rewrite (File_Write_end _ p c) by done. simpl.
    split_and!; [done | by rewrite lookup_insert_eq | by rewrite length_app |].
    intros k Hk. by rewrite lookup_insert_ne.
  - rewrite Hdir by done.
    eexists _, _, _, _. split; [reflexivity |].
    rewrite (File_Write_end _ p []) by (simpl; by rewrite ?lookup_insert_eq). simpl.
    split_and!; [done | by rewrite lookup_insert_eq | done |].
    intros k Hk. by rewrite !lookup_insert_ne.
Qed.

(** X2. A file opened with [openFreezerFileTruncated] starts empty whatever
    it held: after the first write through the handle it holds the bytes
    written and nothing else. No other file changes. The path is not a
    directory. *)
Theorem openFreezerFileTruncated_starts_empty (filename : string) (p : list byte)
    (fs : fsys) :
  (fs !! filename = None → is_dir filename fs = false) →
  ∃ fs1 f fs2 f',
    openFreezerFileTruncated filename fs = (fs1, inl f) ∧
    writable f = true ∧
    fs1 !! filename = Some [] ∧
    File_Write (file f) p fs1 = (fs2, f', None) ∧
    fs2 !! filename = Some p ∧
    ∀ k, k ≠ filename → fs2 !! k = fs !! k.
Proof.
  intros Hdir.
  assert (openFreezerFileTruncated filename fs
          = (<[filename := []]> fs,
             inl {| file := {| Name := filename; pos := 0%nat |}; writable := true |}))
    as Hopen.
  { unfold openFreezerFileTruncated. destruct (fs !! filename); [done |].
    by rewrite Hdir. }
  eexists _, _, _, _. split; [exact Hopen |]. simpl.
  rewrite (File_Write_end _ p []) by (simpl; by rewrite ?lookup_insert_eq). simpl.
  split_and!; [done | by rewrite lookup_insert_eq | done | by rewrite lookup_insert_eq |].
  intros k Hk. by rewrite !lookup_insert_ne.
Qed.

Lemma truncateFreezerFile_writable (f : Handle) (size : Z) (fs : fsys) (c : list byte) :
  writable f = true → fs !! Name (file f) = Some c → 0 ≤ size →
  truncateFreezerFile f size fs
  = (<[Name (file f) := take (Z.to_nat size) c
                          ++ replicate (Z.to_nat size - length c) x00]> fs,
     {| file := {| Name := Name (file f);
                   pos := length (take (Z.to_nat size) c
                                    ++ replicate (Z.to_nat size - length c) x00) |};
        writable := writable f |}, None).
Proof.
  intros Hw Hc Hsize. unfold truncateFreezerFile, File_Truncate, File_SeekEnd.
  rewrite Hw. simpl. destruct (Z.ltb_spec size 0); [lia |].
  by rewrite Hc, lookup_insert_eq.
Qed.

Lemma length_resized (n : nat) (c : list byte) :
  length (take n c ++ replicate (n - length c) x00) = n.
Proof. rewrite length_app, length_take, length_replicate. lia. Qed.

(** X3. [truncateFreezerFile] on a file open for writing, with a size that
    is not negative, leaves the file with exactly that many bytes, the first
    ones of what it held, filled up with zero bytes when it was shorter, and
    the cursor at the new end: the next write through the handle goes right
    behind them, wherever the cursor was before. No other file changes. *)
Theorem truncateFreezerFile_resizes (f : Handle) (size : Z) (fs : fsys) (c : list byte) :
  writable f = true →
  fs !! Name (file f) = Some c →
  0 ≤ size →
  let n := Z.to_nat size in
  let resized := take n c ++ replicate (n - length c) x00 in
  ∃ fs' f',
    truncateFreezerFile f size fs = (fs', f', None) ∧
    fs' !! Name (file f) = Some resized ∧
    length resized = n ∧
    Name (file f') = Name (file f) ∧ pos (file f') = n ∧ writable f' = true ∧
    (∀ k, k ≠ Name (file f) → fs' !! k = fs !! k) ∧
    ∀ p, (File_Write (file f') p fs').1.1 !! Name (file f) = Some (resized ++ p).
Proof.
  intros Hw Hc Hsize n resized.
  eexists _, _. split; [by apply truncateFreezerFile_writable |].
  fold n. fold resized. simpl.
  split_and!; try done.
  - by rewrite lookup_insert_eq.
  - apply length_resized.
  - apply length_resized.
  - intros k Hk. by rewrite lookup_insert_ne.
  - intros p. rewrite (File_Write_end _ p resized); simpl.
    + by rewrite lookup_insert_eq.
    + by rewrite lookup_insert_eq.
    + done.
Qed.

(** X4. An append is undone by a resize to the old length: after a write
    through a handle from [openFreezerFileForAppend],
    [truncateFreezerFile] with the length the file had gives back the file
    system and the handle as they were before the write. *)
Theorem append_rolled_back (filename : string) (p c : list byte) (fs : fsys) :
  fs !! filename = Some c →
  ∃ f fs1 f1,
    openFreezerFileForAppend filename fs = (fs, inl f) ∧
    File_Write f p fs = (fs1, f1, None) ∧
    truncateFreezerFile {| file := f1; writable := true |} (Z.of_nat (length c)) fs1
    = (fs, {| file := f; writable := true |}, None).
Proof.
  intros Hc. unfold openFreezerFileForAppend. rewrite Hc.
  eexists _, _, _. split; [reflexivity |].
  rewrite (File_Write_end _ p c) by done. split; [reflexivity |].
  rewrite (truncateFreezerFile_writable _ _ _ (c ++ p))
    by (simpl; try done; try lia; by rewrite lookup_insert_eq).
  simpl. rewrite Nat2Z.id, take_app_length.
  replace (length c - length (c ++ p))%nat with 0%nat by (rewrite length_app; lia).
  simpl. rewrite app_nil_r, insert_insert_eq, insert_id by done. done.
Qed.

(** X5. [openFreezerFileForReadOnly] changes nothing in the file system and
    fails exactly when the path is neither a file nor a directory; the
    handle it returns is of no use to [truncateFreezerFile], which fails on
    it and leaves the file system and the handle as they are. *)
Theorem openFreezerFileForReadOnly_protects (filename : string) (fs : fsys) :
  (openFreezerFileForReadOnly filename fs).1 = fs ∧
  ((∃ e, (openFreezerFileForReadOnly filename fs).2 = inr e)
   ↔ fs !! filename = None ∧ is_dir filename fs = false) ∧
  ∀ f size, (openFreezerFileForReadOnly filename fs).2 = inl f →
    truncateFreezerFile f size fs = (fs, f, Some ErrInvalid).
Proof.
  unfold openFreezerFileForReadOnly.
  destruct (fs !! filename) as [c|] eqn:Hc; [| destruct (is_dir filename fs) eqn:Hdir];
    simpl; (split; [done |]); split.
  - split; [by intros [? ?] | by intros [? ?]].
  - by intros f size [= <-].
  - split; [by intros [? ?] | by intros [? ?]].
  - by intros f size [= <-].
  - split; [done | intros _; by eexists].
  - done.
Qed.


(** ** readIndex *)

Section ReadIndex.
Context `{IndexCodec}.

(** Within the range of signed offsets, [readIndex] gives the record at the
    position, and [io.EOF] from the first position on that has no whole
    record. *)
Lemma readIndex_in_range (t : freezerTable) (i : nat) (fs : fsys) (c : list byte) :
  (0 < indexEntrySize)%nat →
  fs !! index t = Some c →
  Z.of_nat i * Z.of_nat indexEntrySize < 2 ^ 63 →
  readIndex t (Z.of_nat i) fs
  = if decide (S i * indexEntrySize ≤ length c)%nat then inl (record_at c i) else inr EOF.
Proof.
  intros Hpos Hfs Hoff. unfold readIndex, ReadAt, uint64, int64.
  rewrite Z.mod_small by lia.
  destruct (Z.ltb_spec (Z.of_nat i * Z.of_nat indexEntrySize) (2 ^ 63)); [| lia].
  destruct (Z.ltb_spec (Z.of_nat i * Z.of_nat indexEntrySize) 0); [lia |].
  rewrite Hfs.
  replace (Z.to_nat (Z.of_nat i * Z.of_nat indexEntrySize)) with (i * indexEntrySize)%nat by lia.
  rewrite length_take, length_drop.
  destruct (decide (S i * indexEntrySize ≤ length c)%nat).
  - rewrite bool_decide_eq_true_2 by lia. done.
  - rewrite bool_decide_eq_false_2 by lia. done.
Qed.

Lemma length_encode_all (l : list indexEntry) :
  fixed_width → length (encode_all l) = (length l * indexEntrySize)%nat.
Proof.
  intros [_ Henc]. unfold encode_all.
  induction l as [|e l IH]; simpl; [done |].
  rewrite length_app, Henc, IH. done.
Qed.

(** The bytes of record [i] in the encoding of a list of entries are the
    encoding of its [i]-th entry. *)
Lemma record_bytes_encode_all (l : list indexEntry) (rest : list byte) (i : nat)
    (e : indexEntry) :
  fixed_width → l !! i = Some e →
  take indexEntrySize (drop (i * indexEntrySize) (encode_all l ++ rest)) = append e [].
Proof.
  intros Hwidth. pose proof Hwidth as [_ Henc].
  revert i. induction l as [|e' l IH]; intros i Hi; [done |].
  unfold encode_all. simpl. fold (encode_all l). rewrite <- app_assoc.
  destruct i as [|i]; simpl in Hi.
  - injection Hi as ->. rewrite Nat.mul_0_l, drop_0.
    rewrite take_app_length'; [done | by rewrite Henc].
  - replace (S i * indexEntrySize)%nat with (length (append e' []) + i * indexEntrySize)%nat
      by (rewrite Henc; lia).
    rewrite drop_app_add'; [by apply IH | done].
Qed.

(** X6. An index file that holds the encodings of a list of entries, one
    after the other, perhaps followed by a piece shorter than a record, is
    read back by [readIndex] entry by entry, and reads as [io.EOF] from the
    end of the list on: a trailing piece of a record is the end of the
    index, not an error. The codec decodes what it encoded. *)
Theorem readIndex_reads_back (t : freezerTable) (fs : fsys) (l : list indexEntry)
    (rest : list byte) (i : nat) :
  fixed_width →
  (∀ e, e ∈ l → unmarshalBinary (append e []) = e) →
  fs !! index t = Some (encode_all l ++ rest) →
  (length rest < indexEntrySize)%nat →
  Z.of_nat i * Z.of_nat indexEntrySize < 2 ^ 63 →
  readIndex t (Z.of_nat i) fs
  = match l !! i with
    | Some e => inl e
    | None => inr EOF
    end.
Proof.
  intros Hwidth Hcodec Hfs Hrest Hoff. pose proof Hwidth as [[Hpos _] _].
  rewrite (readIndex_in_range t i fs _ Hpos Hfs Hoff).
  rewrite length_app, length_encode_all by done.
  destruct (l !! i) as [e|] eqn:Hi.
  - pose proof (lookup_lt_Some _ _ _ Hi) as Hlt.
    rewrite decide_True by nia.
    unfold record_at. rewrite (record_bytes_encode_all l rest i e) by done.
    f_equal. apply Hcodec. by eapply list_elem_of_lookup_2.
  - apply lookup_ge_None in Hi. rewrite decide_False by nia. done.
Qed.

(** X7. A record number whose byte offset does not fit a signed 64-bit
    integer is an error of [readIndex] whatever the index file holds, and
    not the [io.EOF] that ends the loop of [concat]. *)
Theorem readIndex_offset_overflow (t : freezerTable) (i : Z) (fs : fsys) :
  2 ^ 63 ≤ i * Z.of_nat indexEntrySize < 2 ^ 64 →
  readIndex t i fs = inr ErrInvalid.
Proof.
  intros Hoff. unfold readIndex, ReadAt, uint64, int64.
  rewrite Z.mod_small by lia.
  destruct (Z.ltb_spec (i * Z.of_nat indexEntrySize) (2 ^ 63)); [lia |].
  destruct (Z.ltb_spec (i * Z.of_nat indexEntrySize - 2 ^ 64) 0); [done | lia].
Qed.

End ReadIndex.

(** ** What concat leaves alone *)

Lemma File_Write_frame (f f' : File) (p : list byte) (fs fs' : fsys) (e : option error) :
  File_Write f p fs = (fs', f', e) →
  Name f' = Name f ∧ ∀ k, k ≠ Name f → fs' !! k = fs !! k.
Proof.
  unfold File_Write. destruct (fs !! Name f); intros [= <- <- <-]; [| done].
  split; [done |]. intros k Hk. by rewrite lookup_insert_ne.
Qed.

Lemma Flush_frame (b b' : Writer) (fs fs' : fsys) (e : option error) :
  Flush b fs = (fs', b', e) →
  Name (wr b') = Name (wr b) ∧ ∀ k, k ≠ Name (wr b) → fs' !! k = fs !! k.
Proof.
  unfold Flush. destruct (werr b); [by intros [= <- <- <-] |].
  destruct (buf b); [by intros [= <- <- <-] |].
  destruct (File_Write _ _ fs) as [[fs1 f1] [e1|]] eqn:Hw;
    intros [= <- <- <-]; by apply File_Write_frame in Hw.
Qed.

Lemma Write_loop_frame (fuel : nat) (b b' : Writer) (p p' : list byte) (nn nn' : nat)
    (fs fs' : fsys) :
  Write_loop fuel b p nn fs = (fs', b', p', nn') →
  Name (wr b') = Name (wr b) ∧ ∀ k, k ≠ Name (wr b) → fs' !! k = fs !! k.
Proof.
  revert b p nn fs. induction fuel as [|fuel IH]; intros b p nn fs.
  { by intros [= <- <- <- <-]. }
  rewrite Write_loop_unfold.
  destruct (_ && _); [| by intros [= <- <- <- <-]].
  destruct (bool_decide _).
  - destruct (File_Write _ _ fs) as [[fs1 f1] [e1|]] eqn:Hw;
      apply File_Write_frame in Hw as [Hname Hframe]; intros Hloop;
      apply IH in Hloop as [Hname' Hframe']; simpl in *;
      (split; [congruence |]); intros k Hk;
      rewrite Hframe', Hframe; congruence.
  - cbv zeta. destruct (Flush _ fs) as [[fs1 b1] e1] eqn:Hf.
    apply Flush_frame in Hf as [Hname Hframe]. simpl in *. intros Hloop.
    apply IH in Hloop as [Hname' Hframe'].
    split; [congruence |]. intros k Hk. rewrite Hframe', Hframe; congruence.
Qed.

Lemma Write_frame (b b' : Writer) (p : list byte) (n : nat) (fs fs' : fsys)
    (e : option error) :
  Write b p fs = (fs', b', n, e) →
  Name (wr b') = Name (wr b) ∧ ∀ k, k ≠ Name (wr b) → fs' !! k = fs !! k.
Proof.
  unfold Write. destruct (Write_loop 2 b p 0 fs) as [[[fs1 b1] p1] n1] eqn:Hloop.
  apply Write_loop_frame in Hloop as [Hname Hframe].
  destruct (werr b1); intros [= <- <- <- <-]; done.
Qed.

Section ConcatFrame.
Context `{IndexCodec}.

Lemma concat_body_frame (to from : freezerTable) (st : loopState) (fs fs' : fsys)
    (t : turn) (k : string) :
  Name (wr (toIndex st)) = index to →
  k ≠ index to →
  (∀ a b, untouched (fileName from a) (fileName to b) k) →
  concat_body to from st fs = (fs', t) →
  fs' !! k = fs !! k ∧
  ∀ st', t = Continue st' → Name (wr (toIndex st')) = index to.
Proof.
  intros Hname Hk Hunt. unfold concat_body.
  destruct (readIndex from (cur st) fs) as [entry|err].
  2: { destruct err; intros [= <- <-]; done. }
  assert (∀ fs1 tid fid,
            fs1 !! k = fs !! k →
            match Write (toIndex st) (append {| filenum := tid; offset := offset entry |} []) fs1
            with
            | (fs2, _, _, Some err) => (fs2, Return (ErrIndexWrite err))
            | (fs2, toIndex, _, None) =>
                (fs2, Continue {| toIndex := toIndex; toFileId := tid; fromFileId := fid;
                                  cur := uint64 (cur st + 1) |})
            end = (fs', t) →
            fs' !! k = fs !! k ∧
            ∀ st', t = Continue st' → Name (wr (toIndex st')) = index to) as Hwrite.
  { intros fs1 tid fid Hfs1.
    destruct (Write _ _ fs1) as [[[fs2 b2] n] [e|]] eqn:HW;
      apply Write_frame in HW as [Hname2 Hframe]; intros [= <- <-].
    - split; [| done]. rewrite Hframe; congruence.
    - split; [rewrite Hframe; congruence |]. intros st' [= <-]. simpl. congruence. }
  destruct (bool_decide (filenum entry ≠ fromFileId st)).
  2: { by apply Hwrite. }
  destruct (Rename _ _ fs) as [fs1 [err|]] eqn:Hren.
  { apply Rename_error in Hren as ->. by intros [= <- <-]. }
  assert (fs1 !! k = fs !! k) as Hfs1.
  { replace fs1 with (Rename (fileName from (fromFileId st))
                        (fileName to (uint32 (toFileId st + 1))) fs).1 by (by rewrite Hren).
    by apply Rename_untouched. }
  destruct (bool_decide (fromFileId st ≠ uint32 (filenum entry + 1))).
  { by intros [= <- <-]. }
  by apply Hwrite.
Qed.

Lemma concat_loop_frame (fuel : nat) (to from : freezerTable) (st : loopState)
    (fs fs' : fsys) (r : loopState + error) (k : string) :
  Name (wr (toIndex st)) = index to →
  k ≠ index to →
  (∀ a b, untouched (fileName from a) (fileName to b) k) →
  concat_loop fuel to from st fs = Some (fs', r) →
  fs' !! k = fs !! k ∧
  ∀ st', r = inl st' → Name (wr (toIndex st')) = index to.
Proof.
  intros Hname Hk Hunt. revert st fs Hname.
  induction fuel as [|fuel IH]; intros st fs Hname; [done |]. simpl.
  destruct (concat_body to from st fs) as [fs1 t] eqn:Hbody.
  apply concat_body_frame with (k := k) in Hbody as [Hfs1 Hcont]; try done.
  destruct t as [st1| |err].
  - intros Hloop. apply IH in Hloop as [Hfs' Hname']; [| by apply Hcont].
    split; [congruence | done].
  - intros [= <- <-]. split; [done |]. by intros st' [= <-].
  - by intros [= <- <-].
Qed.

(** X8. [concat] leaves every file alone that is neither the index of the
    destination table nor a segment file name of one of the two tables, nor
    beneath such a name: whether it succeeds or fails, such a path holds
    afterwards what it held before. *)
Theorem concat_leaves_other_files (fuel : nat) (to from : freezerTable) (fs fs' : fsys)
    (r : option error) (k : string) :
  k ≠ index to →
  (∀ a b, untouched (fileName from a) (fileName to b) k) →
  concat fuel to from fs = Some (fs', r) →
  fs' !! k = fs !! k.
Proof.
  intros Hk Hunt. unfold concat.
  destruct (openFreezerFileForAppend (index to) fs) as [fs0 [idx|err]] eqn:Hopen.
  2: { unfold openFreezerFileForAppend in Hopen.
       destruct (fs !! index to); [done |].
       destruct (is_dir (index to) fs); [| done].
       injection Hopen as <- _. by intros [= <- <-]. }
  assert (fs0 !! k = fs !! k ∧ Name idx = index to) as [Hfs0 Hname].
  { unfold openFreezerFileForAppend in Hopen.
    destruct (fs !! index to); [by injection Hopen as <- <- |].
    destruct (is_dir (index to) fs); [done |].
    injection Hopen as <- <-. by rewrite lookup_insert_ne. }
  destruct (concat_loop _ _ _ _ fs0) as [[fs1 res]|] eqn:Hloop; [| done].
  apply concat_loop_frame with (k := k) in Hloop as [Hfs1 Hname1]; try done.
  destruct res as [st|err]; [| intros [= <- <-]; congruence].
  destruct (Flush (toIndex st) fs1) as [[fs2 b2] [e|]] eqn:Hflush;
    apply Flush_frame in Hflush as [_ Hframe];
    rewrite (Hname1 st eq_refl) in Hframe.
  - intros [= <- <-]. rewrite Hframe; congruence.
  - intros Hren.
    replace fs' with (Rename (fileName from (fromFileId st))
                        (fileName to (toFileId st)) fs2).1
      by (injection Hren as Hren; by rewrite Hren).
    rewrite Rename_untouched by done. rewrite Hframe; congruence.
Qed.

End ConcatFrame.

(** ** A source table of one segment *)

Section SingleSegment.
Context `{IndexCodec}.
Variables to from : freezerTable.
Variables cs c0 : list byte.
Hypothesis Hwidth : fixed_width.
Hypothesis Hapart : index_files_apart to from.
Hypothesis Hsize : Z.of_nat (length cs) < 2 ^ 63.

(** A turn of the loop on a record of the segment that is being drained:
    the record goes to the writer under the current destination number, the
    numbers stay, and only the destination index can change. *)
Lemma concat_body_same_segment (k : nat) (written : list indexEntry) (st : loopState)
    (fs : fsys) :
  loop_inv to from cs c0 k written st fs →
  (k < record_count cs)%nat →
  filenum (record_at cs k) = fromFileId st →
  ∃ fs' b',
    let st' := {| toIndex := b'; toFileId := toFileId st; fromFileId := fromFileId st;
                  cur := uint64 (cur st + 1) |} in
    concat_body to from st fs = (fs', Continue st') ∧
    loop_inv to from cs c0 (S k)
      (written ++ [{| filenum := toFileId st; offset := offset (record_at cs k) |}]) st' fs' ∧
    ∀ p, p ≠ index to → fs' !! p = fs !! p.
Proof.
  intros (Hfrom & Hcur & Hk & Hlen & Hw & Hoff & Hseg & Hacc) Hlt Hsame.
  destruct Hapart as [Hne Hunt]. pose proof Hwidth as [[Hpos Hfit] Henc].
  unfold concat_body. rewrite Hcur, (readIndex_at from cs Hwidth Hsize) by done.
  rewrite decide_True by done.
  rewrite bool_decide_eq_false_2 by (by intros ?).
  destruct (Write_inv _ _ _
              (append {| filenum := toFileId st; offset := offset (record_at cs k) |} [])
              _ _ Hw) as (fs2 & b2 & n & HW & Hw2 & Hframe).
  { rewrite Henc. lia. }
  rewrite HW. exists fs2, b2. split; [done |]. split; [| done].
  apply (record_count_lt cs Hwidth) in Hlt.
  split_and!; simpl.
  - by rewrite Hframe.
  - unfold uint64. rewrite Z.mod_small; lia.
  - lia.
  - rewrite length_app. simpl. lia.
  - by rewrite encode_all_snoc.
  - intros j e Hj. destruct (decide (j < length written)%nat) as [Hjl|Hjl].
    + rewrite lookup_app_l in Hj by done. by apply Hoff.
    + rewrite lookup_app_r in Hj by lia.
      destruct (j - length written)%nat as [|?] eqn:Hd; [| done].
      injection Hj as <-. simpl. replace j with k by lia. done.
  - by rewrite <- Hsame.
  - intros j Hj. destruct (decide (j = k)) as [->|Hjk].
    + left. by rewrite <- Hseg.
    + apply Hacc. lia.
Qed.

(** The loop on records that are all of the segment being drained runs to
    the end of the source index. *)
Lemma concat_loop_same_segment (fuel k : nat) (written : list indexEntry) (st : loopState)
    (fs : fsys) :
  loop_inv to from cs c0 k written st fs →
  (∀ j, (k ≤ j < record_count cs)%nat → filenum (record_at cs j) = fromFileId st) →
  (record_count cs - k < fuel)%nat →
  ∃ fs' st',
    concat_loop fuel to from st fs = Some (fs', inl st') ∧
    loop_inv to from cs c0 (record_count cs)
      (written ++ map (λ j, {| filenum := toFileId st; offset := offset (record_at cs j) |})
                   (seq k (record_count cs - k))) st' fs' ∧
    toFileId st' = toFileId st ∧ fromFileId st' = fromFileId st ∧
    ∀ p, p ≠ index to → fs' !! p = fs !! p.
Proof.
  revert k written st fs. induction fuel as [|fuel IH]; intros k written st fs Hinv Hall Hfuel;
    [lia |].
  simpl. destruct (decide (k < record_count cs)%nat) as [Hlt|Hge].
  - destruct (concat_body_same_segment k written st fs Hinv Hlt (Hall k ltac:(lia)))
      as (fs1 & b1 & Hbody & Hinv1 & Hframe1).
    cbv zeta in Hbody, Hinv1. rewrite Hbody.
    destruct (IH _ _ _ _ Hinv1) as (fs' & st' & Hloop & Hinv' & Htid & Hfid & Hframe');
      [intros j Hj; simpl; apply Hall; lia | lia |].
    exists fs', st'. split; [done |]. simpl in *.
    split_and!; [| done | done | intros p Hp; rewrite Hframe', Hframe1; done].
    replace (record_count cs - k)%nat with (S (record_count cs - S k)) by lia.
    simpl. by rewrite <- app_assoc in Hinv'.
  - pose proof Hinv as (Hfrom & Hcur & Hk & _).
    assert (k = record_count cs) as Hend.
    { pose proof (record_count_lt cs Hwidth k) as Hiff.
      pose proof Hwidth as [[Hpos _] _]. unfold record_count in *.
      apply (Nat.div_unique _ _ _ (length cs - k * indexEntrySize)); lia. }
    unfold concat_body. rewrite Hcur, (readIndex_at from cs Hwidth Hsize) by done.
    rewrite decide_False by done.
    exists fs, st. split; [done |].
    rewrite <- Hend, Nat.sub_diag. simpl. rewrite app_nil_r. done.
Qed.

(** The merge of a one-segment source up to the final rename: all the
    records are in the destination index when the segment file is renamed. *)
Lemma single_segment_run (fuel : nat) (fs : fsys) :
  fs !! index from = Some cs →
  fs !! index to = Some c0 →
  (∀ j, (j < record_count cs)%nat → filenum (record_at cs j) = tailId from) →
  (record_count cs < fuel)%nat →
  ∃ fs2,
    concat fuel to from fs
    = Some (Rename (fileName from (tailId from)) (fileName to (uint32 (headId to + 1))) fs2) ∧
    fs2 !! index to
    = Some (c0 ++ encode_all (renumbered (uint32 (headId to + 1)) cs (record_count cs))) ∧
    ∀ p, p ≠ index to → fs2 !! p = fs !! p.
Proof.
  intros Hfrom Hto Hall Hfuel.
  pose proof (concat_initial_inv to from cs c0 fs Hfrom Hto) as Hinit.
  destruct (concat_loop_same_segment fuel 0 [] _ fs Hinit) as
    (fs1 & st1 & Hloop & Hinv1 & Htid & Hfid & Hframe1).
  { intros j Hj. simpl. apply Hall. lia. }
  { lia. }
  simpl in Hinv1, Htid, Hfid. rewrite Nat.sub_0_r in Hinv1.
  destruct Hinv1 as (Hfrom1 & _ & _ & _ & Hw & _).
  destruct (Flush_inv _ _ _ _ _ Hw) as (fs2 & b2 & Hflush & Hto2 & Hframe2).
  exists fs2. split_and!; [| done |].
  - unfold concat, openFreezerFileForAppend. by rewrite Hto, Hloop, Hflush, Htid, Hfid.
  - intros p Hp. by rewrite Hframe2, Hframe1.
Qed.

(** The merge of a one-segment source: the state that the final rename
    finds, and what it makes of it. *)
Lemma single_segment_state (fuel : nat) (fs : fsys) (seg : list byte) :
  fs !! index from = Some cs →
  fs !! index to = Some c0 →
  (∀ j, (j < record_count cs)%nat → filenum (record_at cs j) = tailId from) →
  fs !! fileName from (tailId from) = Some seg →
  is_dir (fileName to (uint32 (headId to + 1))) fs = false →
  (record_count cs < fuel)%nat →
  ∃ fs2,
    concat fuel to from fs
    = Some (<[fileName to (uint32 (headId to + 1)) := seg]>
              (delete (fileName from (tailId from)) fs2), None) ∧
    fs2 !! index to
    = Some (c0 ++ encode_all (renumbered (uint32 (headId to + 1)) cs (record_count cs))) ∧
    ∀ p, p ≠ index to → fs2 !! p = fs !! p.
Proof.
  intros Hfrom Hto Hall Hseg Hdir Hfuel.
  destruct (single_segment_run fuel fs Hfrom Hto Hall Hfuel)
    as (fs2 & Hconcat & Hto2 & Hframe).
  destruct Hapart as [Hne Hunt].
  assert (index to ≠ fileName from (tailId from)) as Hto_old.
  { destruct (Hunt (tailId from) (uint32 (headId to + 1))) as [_ (? & _)]. done. }
  assert (is_dir (fileName to (uint32 (headId to + 1))) fs2 = false) as Hdir2.
  { rewrite <- Hdir. apply is_dir_same_names. intros p.
    destruct (decide (p = index to)) as [->|Hp]; [by rewrite Hto2, Hto | by rewrite Hframe]. }
  assert (fs2 !! fileName from (tailId from) = Some seg) as Hseg2 by (by rewrite Hframe).
  exists fs2. split_and!; [| done | done].
  by rewrite Hconcat, (Rename_file _ _ _ seg).
Qed.

(** X9. A source table whose index records are all of its tail segment is
    merged: given more turns than there are records, [concat] returns nil;
    the destination index then holds what it held, followed by the source
    records in order with their offsets and the segment number [headId + 1];
    the source's tail segment file is found under the destination's name for
    that segment and, the names differing, no longer under its own; the
    source index and every other file are as they were. The tail segment
    file exists, and the destination's name for it is not a directory. *)
Theorem concat_single_segment (fuel : nat) (fs : fsys) (seg : list byte) :
  fs !! index from = Some cs →
  fs !! index to = Some c0 →
  (∀ j, (j < record_count cs)%nat → filenum (record_at cs j) = tailId from) →
  fs !! fileName from (tailId from) = Some seg →
  is_dir (fileName to (uint32 (headId to + 1))) fs = false →
  (record_count cs < fuel)%nat →
  let old := fileName from (tailId from) in
  let new := fileName to (uint32 (headId to + 1)) in
  ∃ fs',
    concat fuel to from fs = Some (fs', None) ∧
    fs' !! index to
    = Some (c0 ++ encode_all (renumbered (uint32 (headId to + 1)) cs (record_count cs))) ∧
    fs' !! new = Some seg ∧
    (old ≠ new → fs' !! old = None) ∧
    fs' !! index from = Some cs ∧
    ∀ p, p ≠ index to → p ≠ old → p ≠ new → fs' !! p = fs !! p.
Proof.
  intros Hfrom Hto Hall Hseg Hdir Hfuel old new.
  destruct (single_segment_state fuel fs seg Hfrom Hto Hall Hseg Hdir Hfuel)
    as (fs2 & Hconcat & Hto2 & Hframe).
  destruct Hapart as [Hne Hunt].
  assert (index to ≠ old ∧ index to ≠ new ∧ index from ≠ old ∧ index from ≠ new)
    as (Hto_old & Hto_new & Hfrom_old & Hfrom_new).
  { destruct (Hunt (tailId from) (uint32 (headId to + 1)))
      as [(? & ? & _) (? & ? & _)]. done. }
  eexists. split; [exact Hconcat |].
  split_and!.
  - rewrite lookup_insert_ne, lookup_delete_ne by done. done.
  - by rewrite lookup_insert_eq.
  - intros Hon. by rewrite lookup_insert_ne, lookup_delete_eq.
  - rewrite lookup_insert_ne, lookup_delete_ne by done.
    by rewrite Hframe.
  - intros p Hp Hpo Hpn. rewrite lookup_insert_ne, lookup_delete_ne by done. by apply Hframe.
Qed.

(** X10. [concat] returns nil only on a source index in which every record
    is accepted by the loop as it is written: its segment number is the one
    of the record before it (the tail segment's, for the first record), or
    that one is its segment number plus one. So a source index in which
    some record is of the segment after the one of the record before it, as
    in every table of more than one segment, is never merged. *)
Theorem concat_nil_only_if_accepted (fuel : nat) (fs fs' : fsys) :
  fs !! index from = Some cs →
  fs !! index to = Some c0 →
  concat fuel to from fs = Some (fs', None) →
  ∀ j, (j < record_count cs)%nat →
    let prev := seg_before cs (tailId from) j in
    let f := filenum (record_at cs j) in
    (f = prev ∨ prev = uint32 (f + 1)) ∧
    (0 ≤ prev → f < 2 ^ 32 → f ≠ prev + 1).
Proof.
  intros Hfrom Hto Hconcat j Hj prev f.
  destruct (concat_opened to from cs c0 fs Hwidth Hapart Hsize Hfrom Hto _ _ _ Hconcat)
    as (_ & written & _ & [(_ & _ & Hacc & _)|(_ & _ & err & Herr & _)]); [| done].
  specialize (Hacc j Hj). fold prev f in Hacc. split; [exact Hacc |].
  intros Hprev Hf Hnext. destruct Hacc as [Hsame|Hback]; [lia |].
  apply (uint32_succ_succ_ne prev); [lia |].
  replace (uint32 (prev + 1)) with f; [done |].
  unfold uint32. rewrite Z.mod_small; lia.
Qed.

(** X19. [concat] is not undone when its last step fails. With a source
    whose records are all of its tail segment and whose tail segment file
    is missing, [concat] returns the error of the rename, and the
    destination index has all the records of the source appended, under a
    segment number whose file does not exist; nothing else has changed. *)
Theorem concat_missing_segment_file (fuel : nat) (fs : fsys) :
  fs !! index from = Some cs →
  fs !! index to = Some c0 →
  (∀ j, (j < record_count cs)%nat → filenum (record_at cs j) = tailId from) →
  fs !! fileName from (tailId from) = None →
  is_dir (fileName from (tailId from)) fs = false →
  (record_count cs < fuel)%nat →
  ∃ fs',
    concat fuel to from fs = Some (fs', Some (ErrNotExist (fileName from (tailId from)))) ∧
    fs' !! index to
    = Some (c0 ++ encode_all (renumbered (uint32 (headId to + 1)) cs (record_count cs))) ∧
    ∀ p, p ≠ index to → fs' !! p = fs !! p.
Proof.
  intros Hfrom Hto Hall Hseg Hdir Hfuel.
  destruct (single_segment_run fuel fs Hfrom Hto Hall Hfuel)
    as (fs2 & Hconcat & Hto2 & Hframe).
  destruct Hapart as [Hne Hunt].
  assert (index to ≠ fileName from (tailId from)) as Hto_old.
  { destruct (Hunt (tailId from) (uint32 (headId to + 1))) as [_ (? & _)]. done. }
  assert (is_dir (fileName from (tailId from)) fs2 = false) as Hdir2.
  { rewrite <- Hdir. apply is_dir_same_names. intros p.
    destruct (decide (p = index to)) as [->|Hp]; [by rewrite Hto2, Hto | by rewrite Hframe]. }
  exists fs2. split_and!; [| done | done].
  rewrite Hconcat. unfold Rename. by rewrite Hframe, Hseg, Hdir2.
Qed.

End SingleSegment.

(** ** copyFrom, when nothing fails *)

Lemma subpath_self (p : string) : subpath p p = None.
Proof.
  destruct (subpath p p) as [rel|] eqn:Hsub; [| done].
  apply subpath_Some in Hsub. apply (f_equal String.length) in Hsub.
  rewrite !string_length_append in Hsub. simpl in Hsub. lia.
Qed.

Lemma write_at_start (p : list byte) : write_at [] 0 p = p.
Proof. exact (write_at_end [] p). Qed.

Lemma int64_small (off : Z) : 0 ≤ off < 2 ^ 63 → int64 off = off.
Proof. intros Hoff. unfold int64. destruct (Z.ltb_spec off (2 ^ 63)); lia. Qed.

(** With a free temporary name, a callback that returns no error, a source
    that exists and an offset that [Seek] takes, [copyFrom] gets to the
    rename, and returns what the rename of the temporary file returns. *)
Lemma copyFrom_to_rename (names : list string) (srcPath destPath fname : string) (off : Z)
    (before : option (tmpfile → tmpfile * option error)) (f : tmpfile) (fs : fsys)
    (src : list byte) :
  (TempFile names fs).2 = inl fname →
  match before with
  | Some b => b {| tdata := []; tpos := 0 |} = (f, None)
  | None => f = {| tdata := []; tpos := 0 |}
  end →
  fs !! srcPath = Some src →
  0 ≤ int64 off →
  let copied := write_at (tdata f) (tpos f) (drop (Z.to_nat off) src) in
  let renamed := Rename fname destPath (<[fname := copied]> fs) in
  fs !! fname = None ∧
  copyFrom NoFault names srcPath destPath off before fs
  = (Remove fname renamed.1, renamed.2).
Proof.
  intros Htmp Hb Hsrc Hoff copied renamed.
  destruct (TempFile names fs) as [fs0 [n|e]] eqn:Htmp'; simpl in Htmp; [| done].
  injection Htmp as ->.
  pose proof (TempFile_inl _ _ _ _ Htmp') as (Hfresh & _ & ->).
  split; [done |].
  assert (fname ≠ srcPath) as Hne by (intros ->; congruence).
  unfold copyFrom. rewrite Htmp'.
  assert (match before with
          | Some b => b {| tdata := []; tpos := 0 |}
          | None => ({| tdata := []; tpos := 0 |}, None)
          end = (f, None)) as ->.
  { destruct before; [done | by subst f]. }
  cbv beta iota zeta.
  rewrite insert_insert_eq, lookup_insert_ne, Hsrc by done.
  destruct (Z.ltb_spec (int64 off) 0) as [|_]; [lia |].
  unfold renamed, copied. by rewrite !insert_insert_eq.
Qed.

(** [copyFrom] when nothing stands in its way: what the callback left in
    the temporary file, overwritten from its cursor on with the source from
    the offset on, becomes the destination. *)
Lemma copyFrom_no_fault (names : list string) (srcPath destPath fname : string) (off : Z)
    (before : option (tmpfile → tmpfile * option error)) (f : tmpfile) (fs : fsys)
    (src : list byte) :
  (TempFile names fs).2 = inl fname →
  fname ≠ destPath →
  subpath destPath fname = None →
  match before with
  | Some b => b {| tdata := []; tpos := 0 |} = (f, None)
  | None => f = {| tdata := []; tpos := 0 |}
  end →
  fs !! srcPath = Some src →
  0 ≤ off < 2 ^ 63 →
  is_dir destPath fs = false →
  copyFrom NoFault names srcPath destPath off before fs
  = (<[destPath := write_at (tdata f) (tpos f) (drop (Z.to_nat off) src)]> fs, None).
Proof.
  intros Htmp Hne Hsub Hb Hsrc Hoff Hdir.
  destruct (copyFrom_to_rename names srcPath destPath fname off before f fs src)
    as [Hfresh ->]; [done | done | done | |].
  { rewrite int64_small; lia. }
  simpl.
  rewrite (Rename_file _ _ _ (write_at (tdata f) (tpos f) (drop (Z.to_nat off) src))).
  - simpl. unfold Remove.
    rewrite delete_insert_ne, delete_insert_eq by done.
    by rewrite !(delete_id fs).
  - by rewrite lookup_insert_eq.
  - rewrite is_dir_insert, Hdir, Hsub. done.
Qed.

Lemma writes_prefix_callback (before : option (tmpfile → tmpfile * option error))
    (prefix : list byte) :
  writes_prefix before prefix →
  match before with
  | Some b => b {| tdata := []; tpos := 0 |}
              = ({| tdata := prefix; tpos := length prefix |}, None)
  | None => {| tdata := prefix; tpos := length prefix |} = {| tdata := []; tpos := 0 |}
  end.
Proof. unfold writes_prefix. destruct before; [done | by intros ->]. Qed.

(** The temporary file that [ioutil.TempFile] creates depends on the names
    in use alone. *)
Lemma TempFile_same_names (names : list string) (fs fs' : fsys) :
  (∀ n, fs' !! n = None ↔ fs !! n = None) →
  (TempFile names fs').2 = (TempFile names fs).2.
Proof.
  intros Hnames. unfold TempFile.
  rewrite (list_find_ext (λ n, fs' !! n = None) (λ n, fs !! n = None) names Hnames).
  by destruct (list_find _ names) as [[? ?]|].
Qed.

Lemma TempFile_overwrite (names : list string) (p : string) (c c' : list byte) (fs : fsys) :
  fs !! p = Some c → (TempFile names (<[p := c']> fs)).2 = (TempFile names fs).2.
Proof.
  intros Hp. apply TempFile_same_names. intros n.
  destruct (decide (n = p)) as [->|Hne].
  - rewrite lookup_insert_eq, Hp. done.
  - by rewrite lookup_insert_ne.
Qed.

(** X11. [copyFrom] succeeds when nothing stands in its way, and then the
    destination holds the prefix that the callback wrote followed by the
    source from the offset on, and nothing else has changed: the temporary
    file is not left behind. The temporary file that [ioutil.TempFile]
    creates is not the destination and not beneath it, the source exists,
    the offset is below 2^63, and the destination is not a directory. *)
Theorem copyFrom_succeeds (names : list string) (srcPath destPath fname : string) (off : Z)
    (before : option (tmpfile → tmpfile * option error)) (fs : fsys)
    (src prefix : list byte) :
  (TempFile names fs).2 = inl fname →
  fname ≠ destPath →
  subpath destPath fname = None →
  writes_prefix before prefix →
  fs !! srcPath = Some src →
  0 ≤ off < 2 ^ 63 →
  is_dir destPath fs = false →
  copyFrom NoFault names srcPath destPath off before fs
  = (<[destPath := prefix ++ drop (Z.to_nat off) src]> fs, None).
Proof.
  intros Htmp Hne Hsub Hpre Hsrc Hoff Hdir.
  apply writes_prefix_callback in Hpre.
  rewrite (copyFrom_no_fault names srcPath destPath fname off before
             {| tdata := prefix; tpos := length prefix |} fs src) by done.
  simpl. by rewrite write_at_end.
Qed.

(** X12. [copyFrom] of a file onto itself cuts off its first [offset] bytes
    and puts the prefix of the callback in their place. With no callback
    and offset 0 it changes nothing; two cuts in a row, of [a] and then of
    [b] bytes, are the cut of [a + b] bytes, with the prefix of the second. *)
Theorem copyFrom_in_place (names : list string) (p fname : string) (a b : Z)
    (before : option (tmpfile → tmpfile * option error)) (fs : fsys)
    (src prefix : list byte) :
  (TempFile names fs).2 = inl fname →
  fname ≠ p →
  subpath p fname = None →
  writes_prefix before prefix →
  fs !! p = Some src →
  0 ≤ a → 0 ≤ b → a + b < 2 ^ 63 →
  is_dir p fs = false →
  copyFrom NoFault names p p 0 None fs = (fs, None) ∧
  copyFrom NoFault names p p b before (copyFrom NoFault names p p a None fs).1
  = copyFrom NoFault names p p (a + b) before fs ∧
  copyFrom NoFault names p p (a + b) before fs
  = (<[p := prefix ++ drop (Z.to_nat (a + b)) src]> fs, None).
Proof.
  intros Htmp Hne Hsub Hpre Hsrc Ha Hb Hab Hdir.
  apply writes_prefix_callback in Hpre.
  assert (∀ off, 0 ≤ off < 2 ^ 63 →
    copyFrom NoFault names p p off None fs = (<[p := drop (Z.to_nat off) src]> fs, None))
    as Hcut.
  { intros off Hoff.
    rewrite (copyFrom_no_fault names p p fname off None
               {| tdata := []; tpos := 0 |} fs src) by done.
    simpl. by rewrite write_at_start. }
  assert (copyFrom NoFault names p p (a + b) before fs
          = (<[p := prefix ++ drop (Z.to_nat (a + b)) src]> fs, None)) as Hboth.
  { rewrite (copyFrom_no_fault names p p fname (a + b) before
               {| tdata := prefix; tpos := length prefix |} fs src) by (done || lia).
    simpl. by rewrite write_at_end. }
  split_and!; [| | done].
  - rewrite Hcut by lia. simpl. by rewrite insert_id.
  - rewrite Hboth, Hcut by lia. simpl.
    rewrite (copyFrom_no_fault names p p fname b before
               {| tdata := prefix; tpos := length prefix |} _ (drop (Z.to_nat a) src)).
    + simpl. rewrite write_at_end, insert_insert_eq, drop_drop.
      by replace (Z.to_nat (a + b)) with (Z.to_nat a + Z.to_nat b)%nat by lia.
    + by rewrite (TempFile_overwrite names p src).
    + done.
    + done.
    + done.
    + by rewrite lookup_insert_eq.
    + lia.
    + by rewrite is_dir_insert, Hdir, subpath_self.
Qed.

(** X13. What [before] put at the head of a file, a later [copyFrom] takes
    away: after [copyFrom] onto the file itself with offset 0 and a callback
    that wrote a prefix, [copyFrom] with no callback and the length of the
    prefix as offset gives back the file system as it was. *)
Theorem copyFrom_prefix_round_trip (names : list string) (p fname : string)
    (before : option (tmpfile → tmpfile * option error)) (fs : fsys)
    (src prefix : list byte) :
  (TempFile names fs).2 = inl fname →
  fname ≠ p →
  subpath p fname = None →
  writes_prefix before prefix →
  fs !! p = Some src →
  Z.of_nat (length prefix) < 2 ^ 63 →
  is_dir p fs = false →
  copyFrom NoFault names p p (Z.of_nat (length prefix)) None
    (copyFrom NoFault names p p 0 before fs).1
  = (fs, None).
Proof.
  intros Htmp Hne Hsub Hpre Hsrc Hlen Hdir.
  apply writes_prefix_callback in Hpre.
  rewrite (copyFrom_no_fault names p p fname 0 before
             {| tdata := prefix; tpos := length prefix |} fs src) by done.
  simpl. rewrite write_at_end, drop_0.
  rewrite (copyFrom_no_fault names p p fname _ None
             {| tdata := []; tpos := 0 |} _ (prefix ++ src)).
  - simpl.
    rewrite write_at_start, Nat2Z.id, drop_app_length, insert_insert_eq, insert_id by done.
    done.
  - by rewrite (TempFile_overwrite names p src).
  - done.
  - done.
  - done.
  - by rewrite lookup_insert_eq.
  - lia.
  - by rewrite is_dir_insert, Hdir, subpath_self.
Qed.

(** X14. The offset of [copyFrom] at its edges. At or beyond the end of the
    source the destination gets the prefix of the callback and nothing of
    the source. From 2^63 on, the offset is negative as the [int64] that
    [Seek] takes: [copyFrom] returns the error of the seek and the file
    system is as it was, the temporary file with the prefix removed. *)
Theorem copyFrom_offset_edges (names : list string) (srcPath destPath fname : string)
    (off : Z) (before : option (tmpfile → tmpfile * option error)) (fs : fsys)
    (src prefix : list byte) :
  (TempFile names fs).2 = inl fname →
  fname ≠ destPath →
  subpath destPath fname = None →
  writes_prefix before prefix →
  fs !! srcPath = Some src →
  is_dir destPath fs = false →
  Z.of_nat (length src) ≤ off < 2 ^ 64 →
  copyFrom NoFault names srcPath destPath off before fs
  = if off <? 2 ^ 63 then (<[destPath := prefix]> fs, None) else (fs, Some ErrInvalid).
Proof.
  intros Htmp Hne Hsub Hpre Hsrc Hdir Hoff.
  apply writes_prefix_callback in Hpre.
  destruct (Z.ltb_spec off (2 ^ 63)) as [Hlt|Hge].
  - rewrite (copyFrom_no_fault names srcPath destPath fname off before
               {| tdata := prefix; tpos := length prefix |} fs src) by (done || lia).
    simpl. rewrite write_at_end, drop_ge by lia. by rewrite app_nil_r.
  - destruct (copyFrom NoFault names srcPath destPath off before fs) as [fs' r] eqn:Hcopy.
    assert (r = Some ErrInvalid) as ->.
    { change r with (fs', r).2. rewrite <- Hcopy.
      destruct (TempFile names fs) as [fs0 [n|e]] eqn:Htmp'; simpl in Htmp; [| done].
      injection Htmp as ->.
      pose proof (TempFile_inl _ _ _ _ Htmp') as (Hfresh & _ & ->).
      assert (fname ≠ srcPath) as Hns by (intros ->; congruence).
      unfold copyFrom. rewrite Htmp'.
      assert (match before with
              | Some b => b {| tdata := []; tpos := 0 |}
              | None => ({| tdata := []; tpos := 0 |}, None)
              end = ({| tdata := prefix; tpos := length prefix |}, None)) as ->.
      { destruct before; [done | by rewrite Hpre]. }
      cbv beta iota zeta.
      rewrite insert_insert_eq, lookup_insert_ne, Hsrc by done.
      unfold int64. destruct (Z.ltb_spec off (2 ^ 63)); [lia |].
      destruct (Z.ltb_spec (off - 2 ^ 64) 0); [done | lia]. }
    by apply copyFrom_cases in Hcopy as ->.
Qed.

(** ** Concat: errors and the missing "headers" table *)

Section StoreErrors.
Context `{IndexCodec}.

(** The range loop ends without an error only if the source has every table
    that the loop came to. *)
Lemma Concat_range_nil_tables (fuel : nat) (order : list (string * freezerTable))
    (from : freezer) (fs fs1 : fsys) (name : string) :
  Concat_range fuel order from fs = Some (fs1, None) →
  name ∈ order.*1 → is_Some (tables from !! name).
Proof.
  revert fs. induction order as [|[n totab] order IH]; intros fs Hrange Hin; simpl in *.
  { by apply elem_of_nil in Hin. }
  destruct (tables from !! n) as [fromtab|] eqn:Hn; [| done].
  destruct (concat fuel totab fromtab fs) as [[fs2 [err|]]|]; try done.
  apply elem_of_cons in Hin as [->|Hin]; [by rewrite Hn | by eapply IH].
Qed.

(** An error of the range loop is the error of the table at which it stopped. *)
Lemma Concat_range_error (fuel : nat) (order : list (string * freezerTable))
    (from : freezer) (fs fs' : fsys) (e : error) :
  Concat_range fuel order from fs = Some (fs', Some e) →
  ∃ pre name totab post fs1,
    order = pre ++ (name, totab) :: post ∧
    Concat_range fuel pre from fs = Some (fs1, None) ∧
    match tables from !! name with
    | None => e = ErrTableMissing name ∧ fs' = fs1
    | Some fromtab =>
        ∃ err, concat fuel totab fromtab fs1 = Some (fs', Some err) ∧
               e = ErrConcatenating name err
    end.
Proof.
  revert fs. induction order as [|[n totab] order IH]; intros fs Hrange; simpl in *; [done |].
  destruct (tables from !! n) as [fromtab|] eqn:Hn.
  - destruct (concat fuel totab fromtab fs) as [[fs2 [err|]]|] eqn:Hconcat; [| | done].
    + injection Hrange as <- <-. exists [], n, totab, order, fs.
      split_and!; [done | done |]. rewrite Hn. by exists err.
    + destruct (IH _ Hrange) as (pre & name & totab' & post & fs1 & -> & Hpre & Hhere).
      exists ((n, totab) :: pre), name, totab', post, fs1.
      split_and!; [done | | done]. simpl. by rewrite Hn, Hconcat.
  - injection Hrange as <- <-. exists [], n, totab, order, fs.
    split_and!; [done | done |]. by rewrite Hn.
Qed.

(** X15. When [concat] fails on a table, the tables before it in the range
    order having been merged, [Concat] returns the error that names this
    table and wraps the error of [concat], with the file system as the
    failed [concat] left it: the tables merged before stay merged, no table
    after it is looked at, and the roots of the stores are not renamed. *)
Theorem Concat_table_failure (fuel : nat) (pre post : list (string * freezerTable))
    (name : string) (totab fromtab : freezerTable) (to from : freezer)
    (fs fs1 fs2 : fsys) (err : error) :
  Concat_range fuel pre from fs = Some (fs1, None) →
  tables from !! name = Some fromtab →
  concat fuel totab fromtab fs1 = Some (fs2, Some err) →
  Concat fuel (pre ++ (name, totab) :: post) to from fs
  = Some (fs2, Returned (Some (ErrConcatenating name err))).
Proof.
  intros Hpre Hname Hconcat.
  unfold Concat. rewrite Concat_range_app, Hpre. simpl.
  by rewrite Hname, Hconcat.
Qed.

(** X16. Every error that [Concat] returns is about one table of the
    destination store: either the source store has no table of that name,
    or [concat] of the two tables of that name failed and its error is the
    one wrapped. The file system returned with the error is the one that
    the tables before it and this last [concat] left. *)
Theorem Concat_error_names_table (fuel : nat) (order : list (string * freezerTable))
    (to from : freezer) (fs fs' : fsys) (e : error) :
  range_of to order →
  Concat fuel order to from fs = Some (fs', Returned (Some e)) →
  ∃ name totab,
    tables to !! name = Some totab ∧
    match tables from !! name with
    | None => e = ErrTableMissing name
    | Some fromtab =>
        ∃ fs1 err, concat fuel totab fromtab fs1 = Some (fs', Some err) ∧
                   e = ErrConcatenating name err
    end.
Proof.
  intros Horder Hconcat. unfold Concat in Hconcat.
  destruct (Concat_range fuel order from fs) as [[fs1 [e'|]]|] eqn:Hrange; [| | done].
  - injection Hconcat as <- <-.
    destruct (Concat_range_error _ _ _ _ _ _ Hrange)
      as (pre & name & totab & post & fs0 & Heq & _ & Hhere).
    exists name, totab. split.
    + apply elem_of_map_to_list. unfold range_of in Horder. rewrite <- Horder, Heq.
      apply elem_of_app. right. by left.
    + destruct (tables from !! name) as [fromtab|]; [| by destruct Hhere].
      destruct Hhere as (err & Hc & ->). by exists fs0, err.
  - destruct (tables to !! "headers"), (tables from !! "headers"); done.
Qed.

(** X17. [Concat] panics exactly when every table was merged and the
    destination store has no "headers" table: the path of the roots is then
    read through a nil table. It panics with all the tables merged and no
    root renamed. A source store without "headers" is no second way to
    panic: the range loop has returned the missing table by then. In
    particular [Concat] on a destination store without tables panics. *)
Theorem Concat_panics_without_headers (fuel : nat) (order : list (string * freezerTable))
    (to from : freezer) (fs fs' : fsys) (out : outcome) :
  range_of to order →
  Concat fuel order to from fs = Some (fs', out) →
  (out = Panicked
   ↔ tables to !! "headers" = None ∧ Concat_range fuel order from fs = Some (fs', None)).
Proof.
  intros Horder Hconcat. unfold Concat in Hconcat.
  destruct (Concat_range fuel order from fs) as [[fs1 [e|]]|] eqn:Hrange; [| | done].
  { injection Hconcat as <- <-. split; [done | by intros [_ ?]]. }
  destruct (tables to !! "headers") as [totab|] eqn:Hto.
  - assert (is_Some (tables from !! "headers")) as [fromtab Hfrom].
    { eapply Concat_range_nil_tables; [done |].
      rewrite (range_of_lookup to order "headers" Horder). by rewrite Hto. }
    rewrite Hfrom in Hconcat. injection Hconcat as <- <-.
    split; [done | by intros [? _]].
  - injection Hconcat as <- <-. done.
Qed.

End StoreErrors.

(** ** Reading a merged index *)

Section MergedIndex.
Context `{IndexCodec}.
Variables (to from : freezerTable).

(** The records of an index file that holds the encodings of [l]. *)
Lemma record_at_encode_all (l : list indexEntry) (i : nat) (e : indexEntry) :
  fixed_width →
  (∀ e, e ∈ l → unmarshalBinary (append e []) = e) →
  l !! i = Some e → record_at (encode_all l) i = e.
Proof.
  intros Hwidth Hcodec Hi. unfold record_at.
  rewrite <- (app_nil_r (encode_all l)).
  rewrite (record_bytes_encode_all l [] i e) by done.
  apply Hcodec. by eapply list_elem_of_lookup_2.
Qed.

Lemma record_count_encode_all (l : list indexEntry) :
  fixed_width → record_count (encode_all l) = length l.
Proof.
  intros Hwidth. pose proof Hwidth as [[Hpos _] _].
  unfold record_count. rewrite length_encode_all by done.
  apply Nat.div_mul. lia.
Qed.

(** The records that the loop of [concat] writes for a source index that
    holds the encodings of [ls]. *)
Lemma renumbered_encode_all (tid : Z) (ls : list indexEntry) :
  fixed_width →
  (∀ e, e ∈ ls → unmarshalBinary (append e []) = e) →
  renumbered tid (encode_all ls) (length ls)
  = map (λ e, {| filenum := tid; offset := offset e |}) ls.
Proof.
  intros Hwidth Hcodec. unfold renumbered.
  apply list_eq. intros i. rewrite !list_lookup_fmap.
  destruct (ls !! i) as [e|] eqn:Hi; simpl.
  - rewrite lookup_seq_lt by (by eapply lookup_lt_Some). simpl.
    by rewrite (record_at_encode_all ls i e).
  - rewrite lookup_seq_ge by (by apply lookup_ge_None). done.
Qed.

(** X18. Reading the destination index after the merge of a one-segment
    source: [readIndex] gives the entries that the destination had, as they
    were, then the entries of the source with their offsets and the segment
    number [headId + 1], then [io.EOF]. Both index files hold the encodings
    of lists of entries, all of the source in its tail segment, and the
    codec decodes what it encoded of them. *)
Theorem concat_then_readIndex (fuel : nat) (fs : fsys) (l0 ls : list indexEntry)
    (seg : list byte) (i : nat) :
  fixed_width →
  index_files_apart to from →
  (∀ e, e ∈ l0 → unmarshalBinary (append e []) = e) →
  (∀ e, e ∈ ls →
     unmarshalBinary (append e []) = e ∧
     let e' := {| filenum := uint32 (headId to + 1); offset := offset e |} in
     unmarshalBinary (append e' []) = e') →
  fs !! index to = Some (encode_all l0) →
  fs !! index from = Some (encode_all ls) →
  (∀ e, e ∈ ls → filenum e = tailId from) →
  fs !! fileName from (tailId from) = Some seg →
  is_dir (fileName to (uint32 (headId to + 1))) fs = false →
  (length ls < fuel)%nat →
  Z.of_nat (length l0 + length ls) * Z.of_nat indexEntrySize < 2 ^ 63 →
  Z.of_nat i * Z.of_nat indexEntrySize < 2 ^ 63 →
  ∃ fs',
    concat fuel to from fs = Some (fs', None) ∧
    readIndex to (Z.of_nat i) fs'
    = match (l0 ++ map (λ e, {| filenum := uint32 (headId to + 1); offset := offset e |}) ls)
            !! i with
      | Some e => inl e
      | None => inr EOF
      end.
Proof.
  intros Hwidth Hapart Hcodec0 Hcodec Hto Hfrom Htail Hseg Hdir Hfuel Hsize Hoff.
  pose proof Hwidth as [[Hpos _] _].
  assert (∀ e, e ∈ ls → unmarshalBinary (append e []) = e) as Hcodecs.
  { intros e He. by apply Hcodec. }
  assert (Z.of_nat (length (encode_all ls)) < 2 ^ 63) as Hlen.
  { rewrite length_encode_all by done. nia. }
  destruct (single_segment_state to from (encode_all ls) (encode_all l0)
              Hwidth Hapart Hlen fuel fs seg) as (fs2 & Hconcat & Hto2 & _); try done.
  { intros j Hj. rewrite record_count_encode_all in Hj by done.
    destruct (lookup_lt_is_Some_2 ls j Hj) as [e He].
    rewrite (record_at_encode_all ls j e) by done.
    apply Htail. by eapply list_elem_of_lookup_2. }
  { by rewrite record_count_encode_all. }
  eexists. split; [exact Hconcat |].
  destruct Hapart as [_ Hunt].
  destruct (Hunt (tailId from) (uint32 (headId to + 1))) as [_ (Hold & Hnew & _)].
  rewrite record_count_encode_all, renumbered_encode_all in Hto2 by done.
  set (merged := l0 ++ map _ ls).
  assert (encode_all l0 ++ encode_all (map (λ e, {| filenum := uint32 (headId to + 1);
                                                    offset := offset e |}) ls)
          = encode_all merged) as Henc.
  { unfold encode_all, merged. by rewrite flat_map_app. }
  rewrite Henc in Hto2.
  rewrite (readIndex_in_range to i _ (encode_all merged) Hpos) by
    (try done; by rewrite lookup_insert_ne, lookup_delete_ne).
  rewrite length_encode_all by done.
  destruct (merged !! i) as [e|] eqn:Hi.
  - pose proof (lookup_lt_Some _ _ _ Hi) as Hlt.
    rewrite decide_True by nia. f_equal.
    apply record_at_encode_all; [done | | done].
    intros e' [He'|He']%elem_of_app; [by apply Hcodec0 |].
    apply list_elem_of_fmap in He' as (e0 & -> & He0). by apply Hcodec.
  - apply lookup_ge_None in Hi. rewrite decide_False by nia. done.
Qed.

End MergedIndex.

(** ** The further properties on concrete stores *)

Lemma openFreezerFileForAppend_appends_witness :
  (fs_single !! "to/bodies.cidx" = None → is_dir "to/bodies.cidx" fs_single = false) ∧
  ∃ fs1 f fs2 f',
    openFreezerFileForAppend "to/bodies.cidx" fs_single = (fs1, inl f) ∧
    File_Write f (bytes_of "zz") fs1 = (fs2, f', None) ∧
    fs2 !! "to/bodies.cidx"
    = Some (default [] (fs_single !! "to/bodies.cidx") ++ bytes_of "zz") ∧
    pos f' = length (default [] (fs_single !! "to/bodies.cidx") ++ bytes_of "zz") ∧
    ∀ k, k ≠ "to/bodies.cidx" → fs2 !! k = fs_single !! k.
Proof.
  assert (fs_single !! "to/bodies.cidx" = None → is_dir "to/bodies.cidx" fs_single = false)
    as Hdir by (intros _; vm_compute; reflexivity).
  exact (conj Hdir
           (openFreezerFileForAppend_appends "to/bodies.cidx" (bytes_of "zz") fs_single Hdir)).
Defined.

Lemma openFreezerFileTruncated_starts_empty_witness :
  (fs_single !! "to/headers.cidx" = None → is_dir "to/headers.cidx" fs_single = false) ∧
  ∃ fs1 f fs2 f',
    openFreezerFileTruncated "to/headers.cidx" fs_single = (fs1, inl f) ∧
    writable f = true ∧
    fs1 !! "to/headers.cidx" = Some [] ∧
    File_Write (file f) (index_of [(1, 0)]) fs1 = (fs2, f', None) ∧
    fs2 !! "to/headers.cidx" = Some (index_of [(1, 0)]) ∧
    ∀ k, k ≠ "to/headers.cidx" → fs2 !! k = fs_single !! k.
Proof.
  assert (fs_single !! "to/headers.cidx" = None → is_dir "to/headers.cidx" fs_single = false)
    as Hdir by (intros _; vm_compute; reflexivity).
  exact (conj Hdir
           (openFreezerFileTruncated_starts_empty "to/headers.cidx" (index_of [(1, 0)])
              fs_single Hdir)).
Defined.

Lemma truncateFreezerFile_resizes_witness :
  let f := {| file := {| Name := "to/headers.5.cdat"; pos := 0 |}; writable := true |} in
  let resized := take (Z.to_nat 2) (bytes_of "abc")
                 ++ replicate (Z.to_nat 2 - length (bytes_of "abc")) x00 in
  (writable f = true ∧
   fs_single !! Name (file f) = Some (bytes_of "abc") ∧
   0 ≤ 2 ∧
   ∃ fs' f',
     truncateFreezerFile f 2 fs_single = (fs', f', None) ∧
     fs' !! Name (file f) = Some resized ∧
     length resized = Z.to_nat 2 ∧
     Name (file f') = Name (file f) ∧ pos (file f') = Z.to_nat 2 ∧ writable f' = true ∧
     (∀ k, k ≠ Name (file f) → fs' !! k = fs_single !! k) ∧
     ∀ p, (File_Write (file f') p fs').1.1 !! Name (file f) = Some (resized ++ p)).
Proof.
  intros f resized.
  assert (writable f = true) as Hw by reflexivity.
  assert (fs_single !! Name (file f) = Some (bytes_of "abc")) as Hc
    by (vm_compute; reflexivity).
  assert (0 ≤ 2) as Hsize by lia.
  refine (conj Hw (conj Hc (conj Hsize _))).
  exact (truncateFreezerFile_resizes f 2 fs_single (bytes_of "abc") Hw Hc Hsize).
Defined.

Lemma append_rolled_back_witness :
  fs_single !! "to/headers.5.cdat" = Some (bytes_of "abc") ∧
  ∃ f fs1 f1,
    openFreezerFileForAppend "to/headers.5.cdat" fs_single = (fs_single, inl f) ∧
    File_Write f (bytes_of "de") fs_single = (fs1, f1, None) ∧
    truncateFreezerFile {| file := f1; writable := true |}
      (Z.of_nat (length (bytes_of "abc"))) fs1
    = (fs_single, {| file := f; writable := true |}, None).
Proof.
  assert (fs_single !! "to/headers.5.cdat" = Some (bytes_of "abc")) as Hc
    by (vm_compute; reflexivity).
  exact (conj Hc
           (append_rolled_back "to/headers.5.cdat" (bytes_of "de") (bytes_of "abc")
              fs_single Hc)).
Defined.

Lemma readIndex_reads_back_witness :
  let l := [{| filenum := 2; offset := 0 |}; {| filenum := 2; offset := 2 |}] in
  (@fixed_width big_endian_codec ∧
   (∀ e, e ∈ l → @unmarshalBinary big_endian_codec (@append big_endian_codec e []) = e) ∧
   fs_single !! index from_headers = Some (@encode_all big_endian_codec l ++ []) ∧
   (length ([] : list byte) < @indexEntrySize big_endian_codec)%nat ∧
   Z.of_nat 1 * Z.of_nat (@indexEntrySize big_endian_codec) < 2 ^ 63 ∧
   @readIndex big_endian_codec from_headers (Z.of_nat 1) fs_single
   = match l !! 1%nat with
     | Some e => inl e
     | None => inr EOF
     end).
Proof.
  intros l.
  assert (∀ e, e ∈ l → @unmarshalBinary big_endian_codec (@append big_endian_codec e []) = e)
    as Hcodec.
  { intros e He. unfold l in He.
    repeat (apply elem_of_cons in He as [->|He]; [vm_compute; reflexivity |]).
    by apply elem_of_nil in He. }
  assert (fs_single !! index from_headers = Some (@encode_all big_endian_codec l ++ []))
    as Hfs by (vm_compute; reflexivity).
  assert (length ([] : list byte) < @indexEntrySize big_endian_codec)%nat as Hrest
    by (simpl; lia).
  assert (Z.of_nat 1 * Z.of_nat (@indexEntrySize big_endian_codec) < 2 ^ 63) as Hoff
    by (vm_compute; reflexivity).
  refine (conj big_endian_fixed_width (conj Hcodec (conj Hfs (conj Hrest (conj Hoff _))))).
  exact (@readIndex_reads_back big_endian_codec from_headers fs_single l [] 1
           big_endian_fixed_width Hcodec Hfs Hrest Hoff).
Defined.

Lemma readIndex_offset_overflow_witness :
  (2 ^ 63 ≤ 2 ^ 60 * Z.of_nat (@indexEntrySize big_endian_codec) < 2 ^ 64) ∧
  @readIndex big_endian_codec from_headers (2 ^ 60) fs_single = inr ErrInvalid.
Proof.
  assert (2 ^ 63 ≤ 2 ^ 60 * Z.of_nat (@indexEntrySize big_endian_codec) < 2 ^ 64) as Hoff
    by (simpl; lia).
  exact (conj Hoff
           (@readIndex_offset_overflow big_endian_codec from_headers (2 ^ 60) fs_single Hoff)).
Defined.

Lemma concat_leaves_other_files_witness :
  let fs := <["to/bodies.cidx" := bytes_of "b"]> fs_single in
  let fs' := (default (∅, None) (@concat big_endian_codec 3 to_headers from_headers fs)).1 in
  ("to/bodies.cidx" ≠ index to_headers ∧
   (∀ a b, untouched (fileName from_headers a) (fileName to_headers b) "to/bodies.cidx") ∧
   @concat big_endian_codec 3 to_headers from_headers fs = Some (fs', None) ∧
   fs' !! "to/bodies.cidx" = fs !! "to/bodies.cidx").
Proof.
  intros fs fs'.
  assert ("to/bodies.cidx" ≠ index to_headers) as Hk by discriminate.
  assert (∀ a b, untouched (fileName from_headers a) (fileName to_headers b) "to/bodies.cidx")
    as Hunt.
  { intros a b. simpl. apply untouched_no_extension; intros r Heq;
      rewrite !append_cons in Heq; discriminate. }
  assert (@concat big_endian_codec 3 to_headers from_headers fs = Some (fs', None)) as Hconcat
    by (apply some_result_eq; vm_compute; reflexivity).
  refine (conj Hk (conj Hunt (conj Hconcat _))).
  exact (@concat_leaves_other_files big_endian_codec 3 to_headers from_headers fs fs' None
           "to/bodies.cidx" Hk Hunt Hconcat).
Defined.

Lemma concat_single_segment_witness :
  let cs := index_of [(2, 0); (2, 2)] in
  let c0 := index_of [(5, 0); (5, 3)] in
  let old := fileName from_headers (tailId from_headers) in
  let new := fileName to_headers (uint32 (headId to_headers + 1)) in
  (@fixed_width big_endian_codec ∧
   index_files_apart to_headers from_headers ∧
   Z.of_nat (length cs) < 2 ^ 63 ∧
   fs_single !! index from_headers = Some cs ∧
   fs_single !! index to_headers = Some c0 ∧
   (∀ j, (j < @record_count big_endian_codec cs)%nat
         → filenum (@record_at big_endian_codec cs j) = tailId from_headers) ∧
   fs_single !! old = Some (bytes_of "xy") ∧
   is_dir new fs_single = false ∧
   (@record_count big_endian_codec cs < 3)%nat ∧
   ∃ fs',
     @concat big_endian_codec 3 to_headers from_headers fs_single = Some (fs', None) ∧
     fs' !! index to_headers
     = Some (c0 ++ @encode_all big_endian_codec
                     (@renumbered big_endian_codec (uint32 (headId to_headers + 1)) cs
                        (@record_count big_endian_codec cs))) ∧
     fs' !! new = Some (bytes_of "xy") ∧
     (old ≠ new → fs' !! old = None) ∧
     fs' !! index from_headers = Some cs ∧
     ∀ p, p ≠ index to_headers → p ≠ old → p ≠ new → fs' !! p = fs_single !! p).
Proof.
  intros cs c0 old new.
  assert (Z.of_nat (length cs) < 2 ^ 63) as Hsize by (vm_compute; reflexivity).
  assert (fs_single !! index from_headers = Some cs) as Hfrom by (vm_compute; reflexivity).
  assert (fs_single !! index to_headers = Some c0) as Hto by (vm_compute; reflexivity).
  assert (∀ j, (j < @record_count big_endian_codec cs)%nat
               → filenum (@record_at big_endian_codec cs j) = tailId from_headers) as Hall.
  { intros j Hj. assert (j = 0 ∨ j = 1)%nat as [-> | ->] by (vm_compute in Hj; lia);
      vm_compute; reflexivity. }
  assert (fs_single !! old = Some (bytes_of "xy")) as Hseg by (vm_compute; reflexivity).
  assert (is_dir new fs_single = false) as Hdir by (vm_compute; reflexivity).
  assert (@record_count big_endian_codec cs < 3)%nat as Hfuel by (vm_compute; lia).
  refine (conj big_endian_fixed_width (conj headers_apart (conj Hsize (conj Hfrom
            (conj Hto (conj Hall (conj Hseg (conj Hdir (conj Hfuel _))))))))).
  exact (@concat_single_segment big_endian_codec to_headers from_headers cs c0
           big_endian_fixed_width headers_apart Hsize 3 fs_single (bytes_of "xy")
           Hfrom Hto Hall Hseg Hdir Hfuel).
Defined.

Lemma concat_nil_only_if_accepted_witness :
  let cs := index_of [(2, 0); (2, 2)] in
  let c0 := index_of [(5, 0); (5, 3)] in
  let fs' := (default (∅, None)
                (@concat big_endian_codec 3 to_headers from_headers fs_single)).1 in
  (@fixed_width big_endian_codec ∧
   index_files_apart to_headers from_headers ∧
   Z.of_nat (length cs) < 2 ^ 63 ∧
   fs_single !! index from_headers = Some cs ∧
   fs_single !! index to_headers = Some c0 ∧
   @concat big_endian_codec 3 to_headers from_headers fs_single = Some (fs', None) ∧
   ∀ j, (j < @record_count big_endian_codec cs)%nat →
     let prev := @seg_before big_endian_codec cs (tailId from_headers) j in
     let f := filenum (@record_at big_endian_codec cs j) in
     (f = prev ∨ prev = uint32 (f + 1)) ∧
     (0 ≤ prev → f < 2 ^ 32 → f ≠ prev + 1)).
Proof.
  intros cs c0 fs'.
  assert (Z.of_nat (length cs) < 2 ^ 63) as Hsize by (vm_compute; reflexivity).
  assert (fs_single !! index from_headers = Some cs) as Hfrom by (vm_compute; reflexivity).
  assert (fs_single !! index to_headers = Some c0) as Hto by (vm_compute; reflexivity).
  assert (@concat big_endian_codec 3 to_headers from_headers fs_single = Some (fs', None))
    as Hconcat by (apply some_result_eq; vm_compute; reflexivity).
  refine (conj big_endian_fixed_width (conj headers_apart (conj Hsize (conj Hfrom
            (conj Hto (conj Hconcat _)))))).
  exact (@concat_nil_only_if_accepted big_endian_codec to_headers from_headers cs c0
           big_endian_fixed_width headers_apart Hsize 3 fs_single fs' Hfrom Hto Hconcat).
Defined.

Lemma concat_missing_segment_file_witness :
  let fs := delete "from/headers.2.cdat" fs_single in
  let cs := index_of [(2, 0); (2, 2)] in
  let c0 := index_of [(5, 0); (5, 3)] in
  let old := fileName from_headers (tailId from_headers) in
  (@fixed_width big_endian_codec ∧
   index_files_apart to_headers from_headers ∧
   Z.of_nat (length cs) < 2 ^ 63 ∧
   fs !! index from_headers = Some cs ∧
   fs !! index to_headers = Some c0 ∧
   (∀ j, (j < @record_count big_endian_codec cs)%nat
         → filenum (@record_at big_endian_codec cs j) = tailId from_headers) ∧
   fs !! old = None ∧
   is_dir old fs = false ∧
   (@record_count big_endian_codec cs < 3)%nat ∧
   ∃ fs',
     @concat big_endian_codec 3 to_headers from_headers fs
     = Some (fs', Some (ErrNotExist old)) ∧
     fs' !! index to_headers
     = Some (c0 ++ @encode_all big_endian_codec
                     (@renumbered big_endian_codec (uint32 (headId to_headers + 1)) cs
                        (@record_count big_endian_codec cs))) ∧
     ∀ p, p ≠ index to_headers → fs' !! p = fs !! p).
Proof.
  intros fs cs c0 old.
  assert (Z.of_nat (length cs) < 2 ^ 63) as Hsize by (vm_compute; reflexivity).
  assert (fs !! index from_headers = Some cs) as Hfrom by (vm_compute; reflexivity).
  assert (fs !! index to_headers = Some c0) as Hto by (vm_compute; reflexivity).
  assert (∀ j, (j < @record_count big_endian_codec cs)%nat
               → filenum (@record_at big_endian_codec cs j) = tailId from_headers) as Hall.
  { intros j Hj. assert (j = 0 ∨ j = 1)%nat as [-> | ->] by (vm_compute in Hj; lia);
      vm_compute; reflexivity. }
  assert (fs !! old = None) as Hseg by (vm_compute; reflexivity).
  assert (is_dir old fs = false) as Hdir by (vm_compute; reflexivity).
  assert (@record_count big_endian_codec cs < 3)%nat as Hfuel by (vm_compute; lia).
  refine (conj big_endian_fixed_width (conj headers_apart (conj Hsize (conj Hfrom
            (conj Hto (conj Hall (conj Hseg (conj Hdir (conj Hfuel _))))))))).
  exact (@concat_missing_segment_file big_endian_codec to_headers from_headers cs c0
           big_endian_fixed_width headers_apart Hsize 3 fs Hfrom Hto Hall Hseg Hdir Hfuel).
Defined.

Lemma copyFrom_succeeds_witness :
  ((TempFile temp_names fs_single).2 = inl "to/183259017" ∧
   "to/183259017" ≠ "to/headers.5.cdat" ∧
   subpath "to/headers.5.cdat" "to/183259017" = None ∧
   writes_prefix (Some before_header) (bytes_of "HDR") ∧
   fs_single !! "from/headers.2.cdat" = Some (bytes_of "xy") ∧
   0 ≤ 1 < 2 ^ 63 ∧
   is_dir "to/headers.5.cdat" fs_single = false ∧
   copyFrom NoFault temp_names "from/headers.2.cdat" "to/headers.5.cdat" 1
     (Some before_header) fs_single
   = (<["to/headers.5.cdat" := bytes_of "HDR" ++ drop (Z.to_nat 1) (bytes_of "xy")]> fs_single,
      None)).
Proof.
  assert ((TempFile temp_names fs_single).2 = inl "to/183259017") as Htmp
    by (vm_compute; reflexivity).
  assert ("to/183259017" ≠ "to/headers.5.cdat") as Hne by discriminate.
  assert (subpath "to/headers.5.cdat" "to/183259017" = None) as Hsub
    by (vm_compute; reflexivity).
  assert (writes_prefix (Some before_header) (bytes_of "HDR")) as Hpre
    by (vm_compute; reflexivity).
  assert (fs_single !! "from/headers.2.cdat" = Some (bytes_of "xy")) as Hsrc
    by (vm_compute; reflexivity).
  assert (0 ≤ 1 < 2 ^ 63) as Hoff by lia.
  assert (is_dir "to/headers.5.cdat" fs_single = false) as Hdir by (vm_compute; reflexivity).
  refine (conj Htmp (conj Hne (conj Hsub (conj Hpre (conj Hsrc (conj Hoff (conj Hdir _))))))).
  exact (copyFrom_succeeds temp_names "from/headers.2.cdat" "to/headers.5.cdat"
           "to/183259017" 1 (Some before_header) fs_single (bytes_of "xy") (bytes_of "HDR")
           Htmp Hne Hsub Hpre Hsrc Hoff Hdir).
Defined.

Lemma copyFrom_in_place_witness :
  let p := "to/headers.5.cdat" in
  ((TempFile temp_names fs_single).2 = inl "to/183259017" ∧
   "to/183259017" ≠ p ∧
   subpath p "to/183259017" = None ∧
   writes_prefix (Some before_header) (bytes_of "HDR") ∧
   fs_single !! p = Some (bytes_of "abc") ∧
   0 ≤ 1 ∧ 0 ≤ 1 ∧ 1 + 1 < 2 ^ 63 ∧
   is_dir p fs_single = false ∧
   copyFrom NoFault temp_names p p 0 None fs_single = (fs_single, None) ∧
   copyFrom NoFault temp_names p p 1 (Some before_header)
     (copyFrom NoFault temp_names p p 1 None fs_single).1
   = copyFrom NoFault temp_names p p (1 + 1) (Some before_header) fs_single ∧
   copyFrom NoFault temp_names p p (1 + 1) (Some before_header) fs_single
   = (<[p := bytes_of "HDR" ++ drop (Z.to_nat (1 + 1)) (bytes_of "abc")]> fs_single, None)).
Proof.
  intros p.
  assert ((TempFile temp_names fs_single).2 = inl "to/183259017") as Htmp
    by (vm_compute; reflexivity).
  assert ("to/183259017" ≠ p) as Hne by discriminate.
  assert (subpath p "to/183259017" = None) as Hsub by (vm_compute; reflexivity).
  assert (writes_prefix (Some before_header) (bytes_of "HDR")) as Hpre
    by (vm_compute; reflexivity).
  assert (fs_single !! p = Some (bytes_of "abc")) as Hsrc by (vm_compute; reflexivity).
  assert (0 ≤ 1) as Ha by lia.
  assert (1 + 1 < 2 ^ 63) as Hab by lia.
  assert (is_dir p fs_single = false) as Hdir by (vm_compute; reflexivity).
  refine (conj Htmp (conj Hne (conj Hsub (conj Hpre (conj Hsrc (conj Ha (conj Ha
            (conj Hab (conj Hdir _))))))))).
  exact (copyFrom_in_place temp_names p "to/183259017" 1 1 (Some before_header) fs_single
           (bytes_of "abc") (bytes_of "HDR") Htmp Hne Hsub Hpre Hsrc Ha Ha Hab Hdir).
Defined.

Lemma copyFrom_prefix_round_trip_witness :
  let p := "to/headers.5.cdat" in
  ((TempFile temp_names fs_single).2 = inl "to/183259017" ∧
   "to/183259017" ≠ p ∧
   subpath p "to/183259017" = None ∧
   writes_prefix (Some before_header) (bytes_of "HDR") ∧
   fs_single !! p = Some (bytes_of "abc") ∧
   Z.of_nat (length (bytes_of "HDR")) < 2 ^ 63 ∧
   is_dir p fs_single = false ∧
   copyFrom NoFault temp_names p p (Z.of_nat (length (bytes_of "HDR"))) None
     (copyFrom NoFault temp_names p p 0 (Some before_header) fs_single).1
   = (fs_single, None)).
Proof.
  intros p.
  assert ((TempFile temp_names fs_single).2 = inl "to/183259017") as Htmp
    by (vm_compute; reflexivity).
  assert ("to/183259017" ≠ p) as Hne by discriminate.
  assert (subpath p "to/183259017" = None) as Hsub by (vm_compute; reflexivity).
  assert (writes_prefix (Some before_header) (bytes_of "HDR")) as Hpre
    by (vm_compute; reflexivity).
  assert (fs_single !! p = Some (bytes_of "abc")) as Hsrc by (vm_compute; reflexivity).
  assert (Z.of_nat (length (bytes_of "HDR")) < 2 ^ 63) as Hlen by (vm_compute; reflexivity).
  assert (is_dir p fs_single = false) as Hdir by (vm_compute; reflexivity).
  refine (conj Htmp (conj Hne (conj Hsub (conj Hpre (conj Hsrc (conj Hlen (conj Hdir _))))))).
  exact (copyFrom_prefix_round_trip temp_names p "to/183259017" (Some before_header)
           fs_single (bytes_of "abc") (bytes_of "HDR") Htmp Hne Hsub Hpre Hsrc Hlen Hdir).
Defined.

Lemma copyFrom_offset_edges_witness :
  ((TempFile temp_names fs_single).2 = inl "to/183259017" ∧
   "to/183259017" ≠ "to/headers.5.cdat" ∧
   subpath "to/headers.5.cdat" "to/183259017" = None ∧
   writes_prefix (Some before_header) (bytes_of "HDR") ∧
   fs_single !! "from/headers.2.cdat" = Some (bytes_of "xy") ∧
   is_dir "to/headers.5.cdat" fs_single = false ∧
   Z.of_nat (length (bytes_of "xy")) ≤ 2 ^ 63 < 2 ^ 64 ∧
   copyFrom NoFault temp_names "from/headers.2.cdat" "to/headers.5.cdat" (2 ^ 63)
     (Some before_header) fs_single
   = if 2 ^ 63 <? 2 ^ 63
     then (<["to/headers.5.cdat" := bytes_of "HDR"]> fs_single, None)
     else (fs_single, Some ErrInvalid)).
Proof.
  assert ((TempFile temp_names fs_single).2 = inl "to/183259017") as Htmp
    by (vm_compute; reflexivity).
  assert ("to/183259017" ≠ "to/headers.5.cdat") as Hne by discriminate.
  assert (subpath "to/headers.5.cdat" "to/183259017" = None) as Hsub
    by (vm_compute; reflexivity).
  assert (writes_prefix (Some before_header) (bytes_of "HDR")) as Hpre
    by (vm_compute; reflexivity).
  assert (fs_single !! "from/headers.2.cdat" = Some (bytes_of "xy")) as Hsrc
    by (vm_compute; reflexivity).
  assert (is_dir "to/headers.5.cdat" fs_single = false) as Hdir by (vm_compute; reflexivity).
  assert (Z.of_nat (length (bytes_of "xy")) ≤ 2 ^ 63 < 2 ^ 64) as Hoff
    by (split; vm_compute; [discriminate | reflexivity]).
  refine (conj Htmp (conj Hne (conj Hsub (conj Hpre (conj Hsrc (conj Hdir (conj Hoff _))))))).
  exact (copyFrom_offset_edges temp_names "from/headers.2.cdat" "to/headers.5.cdat"
           "to/183259017" (2 ^ 63) (Some before_header) fs_single (bytes_of "xy")
           (bytes_of "HDR") Htmp Hne Hsub Hpre Hsrc Hdir Hoff).
Defined.

Lemma Concat_table_failure_witness :
  let fs2 := (default (∅, None)
                (@concat big_endian_codec 3 to_headers from_headers fs_segments)).1 in
  (@Concat_range big_endian_codec 3 [] from_store fs_segments = Some (fs_segments, None) ∧
   tables from_store !! "headers" = Some from_headers ∧
   @concat big_endian_codec 3 to_headers from_headers fs_segments
   = Some (fs2, Some (ErrJump 3 2)) ∧
   @Concat big_endian_codec 3 ([] ++ [("headers", to_headers)]) to_store from_store
     fs_segments
   = Some (fs2, Returned (Some (ErrConcatenating "headers" (ErrJump 3 2))))).
Proof.
  intros fs2.
  assert (@Concat_range big_endian_codec 3 [] from_store fs_segments
          = Some (fs_segments, None)) as Hpre by reflexivity.
  assert (tables from_store !! "headers" = Some from_headers) as Hname by reflexivity.
  assert (@concat big_endian_codec 3 to_headers from_headers fs_segments
          = Some (fs2, Some (ErrJump 3 2))) as Hconcat
    by (apply some_result_eq; vm_compute; reflexivity).
  refine (conj Hpre (conj Hname (conj Hconcat _))).
  exact (@Concat_table_failure big_endian_codec 3 [] [] "headers" to_headers from_headers
           to_store from_store fs_segments fs_segments fs2 (ErrJump 3 2) Hpre Hname Hconcat).
Defined.

Lemma Concat_error_names_table_witness :
  let order := [("headers", to_headers); ("foo", to_foo)] in
  let fs' := (default (∅, Panicked)
                (@Concat big_endian_codec 3 order to_store_foo from_store fs_single)).1 in
  (range_of to_store_foo order ∧
   @Concat big_endian_codec 3 order to_store_foo from_store fs_single
   = Some (fs', Returned (Some (ErrTableMissing "foo"))) ∧
   ∃ name totab,
     tables to_store_foo !! name = Some totab ∧
     match tables from_store !! name with
     | None => ErrTableMissing "foo" = ErrTableMissing name
     | Some fromtab =>
         ∃ fs1 err,
           @concat big_endian_codec 3 totab fromtab fs1 = Some (fs', Some err) ∧
           ErrTableMissing "foo" = ErrConcatenating name err
     end).
Proof.
  intros order fs'.
  assert (range_of to_store_foo order) as Horder.
  { unfold range_of, to_store_foo, order. simpl.
    rewrite map_to_list_insert by done. rewrite map_to_list_singleton.
    apply Permutation_swap. }
  assert (@Concat big_endian_codec 3 order to_store_foo from_store fs_single
          = Some (fs', Returned (Some (ErrTableMissing "foo")))) as Hconcat
    by (apply some_result_eq; vm_compute; reflexivity).
  refine (conj Horder (conj Hconcat _)).
  exact (@Concat_error_names_table big_endian_codec 3 order to_store_foo from_store
           fs_single fs' (ErrTableMissing "foo") Horder Hconcat).
Defined.

Lemma Concat_panics_without_headers_witness :
  let order := [("bodies", to_bodies)] in
  let fs' := (default (∅, Panicked)
                (@Concat big_endian_codec 2 order to_store_bodies from_store_bodies
                   fs_bodies)).1 in
  (range_of to_store_bodies order ∧
   @Concat big_endian_codec 2 order to_store_bodies from_store_bodies fs_bodies
   = Some (fs', Panicked) ∧
   (Panicked = Panicked
    ↔ tables to_store_bodies !! "headers" = None ∧
      @Concat_range big_endian_codec 2 order from_store_bodies fs_bodies
      = Some (fs', None)) ∧
   fs' !! "to/bodies.1.cdat" = Some (bytes_of "b")).
Proof.
  intros order fs'.
  assert (range_of to_store_bodies order) as Horder.
  { unfold range_of, to_store_bodies, order. simpl. by rewrite map_to_list_singleton. }
  assert (@Concat big_endian_codec 2 order to_store_bodies from_store_bodies fs_bodies
          = Some (fs', Panicked)) as Hconcat
    by (apply some_result_eq; vm_compute; reflexivity).
  refine (conj Horder (conj Hconcat (conj _ _))).
  - exact (@Concat_panics_without_headers big_endian_codec 2 order to_store_bodies
             from_store_bodies fs_bodies fs' Panicked Horder Hconcat).
  - vm_compute. reflexivity.
Defined.

Lemma concat_then_readIndex_witness :
  let l0 := [{| filenum := 5; offset := 0 |}; {| filenum := 5; offset := 3 |}] in
  let ls := [{| filenum := 2; offset := 0 |}; {| filenum := 2; offset := 2 |}] in
  let renumber := λ e, {| filenum := uint32 (headId to_headers + 1); offset := offset e |} in
  (@fixed_width big_endian_codec ∧
   index_files_apart to_headers from_headers ∧
   (∀ e, e ∈ l0 → @unmarshalBinary big_endian_codec (@append big_endian_codec e []) = e) ∧
   (∀ e, e ∈ ls →
      @unmarshalBinary big_endian_codec (@append big_endian_codec e []) = e ∧
      let e' := {| filenum := uint32 (headId to_headers + 1); offset := offset e |} in
      @unmarshalBinary big_endian_codec (@append big_endian_codec e' []) = e') ∧
   fs_single !! index to_headers = Some (@encode_all big_endian_codec l0) ∧
   fs_single !! index from_headers = Some (@encode_all big_endian_codec ls) ∧
   (∀ e, e ∈ ls → filenum e = tailId from_headers) ∧
   fs_single !! fileName from_headers (tailId from_headers) = Some (bytes_of "xy") ∧
   is_dir (fileName to_headers (uint32 (headId to_headers + 1))) fs_single = false ∧
   (length ls < 3)%nat ∧
   Z.of_nat (length l0 + length ls) * Z.of_nat (@indexEntrySize big_endian_codec) < 2 ^ 63 ∧
   Z.of_nat 3 * Z.of_nat (@indexEntrySize big_endian_codec) < 2 ^ 63 ∧
   ∃ fs',
     @concat big_endian_codec 3 to_headers from_headers fs_single = Some (fs', None) ∧
     @readIndex big_endian_codec to_headers (Z.of_nat 3) fs'
     = match (l0 ++ map renumber ls) !! 3%nat with
       | Some e => inl e
       | None => inr EOF
       end).
Proof.
  intros l0 ls renumber.
  assert (∀ e, e ∈ l0 → @unmarshalBinary big_endian_codec (@append big_endian_codec e []) = e)
    as Hcodec0.
  { intros e He. unfold l0 in He.
    repeat (apply elem_of_cons in He as [->|He]; [vm_compute; reflexivity |]).
    by apply elem_of_nil in He. }
  assert (∀ e, e ∈ ls →
            @unmarshalBinary big_endian_codec (@append big_endian_codec e []) = e ∧
            let e' := {| filenum := uint32 (headId to_headers + 1); offset := offset e |} in
            @unmarshalBinary big_endian_codec (@append big_endian_codec e' []) = e')
    as Hcodec.
  { intros e He. unfold ls in He.
    repeat (apply elem_of_cons in He as [->|He]; [split; vm_compute; reflexivity |]).
    by apply elem_of_nil in He. }
  assert (fs_single !! index to_headers = Some (@encode_all big_endian_codec l0)) as Hto
    by (vm_compute; reflexivity).
  assert (fs_single !! index from_headers = Some (@encode_all big_endian_codec ls)) as Hfrom
    by (vm_compute; reflexivity).
  assert (∀ e, e ∈ ls → filenum e = tailId from_headers) as Htail.
  { intros e He. unfold ls in He.
    repeat (apply elem_of_cons in He as [->|He]; [reflexivity |]).
    by apply elem_of_nil in He. }
  assert (fs_single !! fileName from_headers (tailId from_headers) = Some (bytes_of "xy"))
    as Hseg by (vm_compute; reflexivity).
  assert (is_dir (fileName to_headers (uint32 (headId to_headers + 1))) fs_single = false)
    as Hdir by (vm_compute; reflexivity).
  assert (length ls < 3)%nat as Hfuel by (simpl; lia).
  assert (Z.of_nat (length l0 + length ls) * Z.of_nat (@indexEntrySize big_endian_codec)
          < 2 ^ 63) as Hsize by (vm_compute; reflexivity).
  assert (Z.of_nat 3 * Z.of_nat (@indexEntrySize big_endian_codec) < 2 ^ 63) as Hoff
    by (vm_compute; reflexivity).
  refine (conj big_endian_fixed_width (conj headers_apart (conj Hcodec0 (conj Hcodec
            (conj Hto (conj Hfrom (conj Htail (conj Hseg (conj Hdir (conj Hfuel
               (conj Hsize (conj Hoff _)))))))))))).
  exact (@concat_then_readIndex big_endian_codec to_headers from_headers 3 fs_single l0 ls
           (bytes_of "xy") 3 big_endian_fixed_width headers_apart Hcodec0 Hcodec Hto Hfrom
           Htail Hseg Hdir Hfuel Hsize Hoff).
Defined.
